(** * Visualization2D: the scene-graph core of the UI debugger

    A shallow embedding of the pure functions of
    [desktop/plugins/public/ui-debugger/components/Visualization2D.tsx]:
    [toNestedNode], [caclulateFocusState], [findNodeAndGlobalOffsetRec],
    [hitTest], [boundsContainsCoordinate], [offsetCoordinate] and
    [getTotalOffset], with theorems about them.

    Conventions of the embedding.
    - A JavaScript [number] holding a coordinate, a size or an array index
      is a [Z]: the functions only add, subtract, multiply and compare, and
      on integer values in the safe range these are exact.
    - A [Map<Id, ClientNode>] is a [gmap Id ClientNode]; [nodes.get(k)] is
      [nodes !! k], [undefined] is [None].
    - An exception ([TypeError] on a property read of [undefined]) is
      [None] in the result of the function that throws.
    - The two recursions that JavaScript does not bound ([toNestedNode] over
      child ids, the [while] of [getTotalOffset] over parent ids) take a
      fuel argument; running out of fuel is [None]. *)

From stdpp Require Import gmap strings relations sorting.

Local Open Scope Z_scope.

(** ** Data model *)

(** Modelled from the spec: the declaration of [Id] is in [ClientTypes],
    which is not part of the sources at hand; the spec writes ids as
    strings (["ghost"], ["nonexistent-id"]). *)
Definition Id := string.

(** JavaScript truthiness of an id, as tested by [node.activeChild ? .. : ..]:
    the empty string is falsy. *)
Definition truthy (i : Id) : bool :=
  match i with
  | EmptyString => false
  | String _ _ => true
  end.

Record Coordinate := mkCoordinate { cx : Z; cy : Z }.

Record Bounds := mkBounds { bx : Z; by_ : Z; width : Z; height : Z }.

(** Modelled from the spec: [attributes] and [tags] are declared in
    [ClientTypes]; no function of this file looks inside them, they are
    carried from the raw node to the nested node as they are. *)
Definition Attributes := list (string * string).
Definition Tags := list string.

(** [ClientNode] (the spec's RawNode): the fields this file reads. *)
Record ClientNode := mkClientNode {
  c_id : Id;
  c_parent : option Id;
  c_name : string;
  c_attributes : Attributes;
  c_children : list Id;
  c_bounds : Bounds;
  c_tags : Tags;
  c_activeChild : option Id
}.

(** [NestedNode] (the spec's ProjectedNode): an owned rose tree. Its
    induction principle, which reaches the children, is
    [NestedNode_Forall_ind] below. *)
#[local] Unset Elimination Schemes.
Inductive NestedNode := mkNestedNode {
  id : Id;
  name : string;
  attributes : Attributes;
  children : list NestedNode;
  bounds : Bounds;
  tags : Tags;
  activeChildIdx : option Z
}.
#[local] Set Elimination Schemes.

Record FocusState := mkFocusState {
  actualRoot : NestedNode;
  focusedRoot : NestedNode;
  focusedRootGlobalOffset : Coordinate
}.

(** A [Bounds] passed where a [Coordinate] is expected (as
    [offsetCoordinate(mouseCoordinate, nodeBounds)] does): its [x] and [y]. *)
Definition origin (b : Bounds) : Coordinate := mkCoordinate (bx b) (by_ b).

(** ** Geometry *)

Definition boundsContainsCoordinate (b : Bounds) (c : Coordinate) : bool :=
  (bx b <=? cx c) && (cx c <=? bx b + width b) &&
  (by_ b <=? cy c) && (cy c <=? by_ b + height b).

Definition offsetCoordinate (c offset : Coordinate) : Coordinate :=
  mkCoordinate (cx c - cx offset) (cy c - cy offset).

(** ** Focus resolver *)

(** [produce(node, draft => { draft.bounds.x = 0; draft.bounds.y = 0 })]:
    the node with the two fields of its bounds overridden. *)
Definition zeroOrigin (node : NestedNode) : NestedNode :=
  mkNestedNode (id node) (name node) (attributes node) (children node)
    (mkBounds 0 0 (width (bounds node)) (height (bounds node)))
    (tags node) (activeChildIdx node).

Fixpoint findNodeAndGlobalOffsetRec (node : NestedNode)
    (globalOffset : Coordinate) (root : NestedNode) (target : Id)
    {struct node} : option FocusState :=
  let nextOffset :=
    mkCoordinate (cx globalOffset + bx (bounds node))
                 (cy globalOffset + by_ (bounds node)) in
  if String.eqb (id node) target then
    Some (mkFocusState root (zeroOrigin node) nextOffset)
  else
    (fix loop (cs : list NestedNode) : option FocusState :=
       match cs with
       | [] => None
       | child :: rest =>
           match findNodeAndGlobalOffsetRec child nextOffset root target with
           | Some offset => Some offset
           | None => loop rest
           end
       end) (children node).

Definition caclulateFocusState (root : NestedNode) (target : option Id)
    : FocusState :=
  let rootFocusState := mkFocusState root root (mkCoordinate 0 0) in
  match target with
  | None => rootFocusState
  | Some t =>
      match findNodeAndGlobalOffsetRec root (mkCoordinate 0 0) root t with
      | Some fs => fs
      | None => rootFocusState
      end
  end.

(** ** Hit tester *)

(** [node.children[i]] for a JavaScript number [i] that is an integer:
    [undefined] below 0 and from [length] on. *)
Definition childAt (cs : list NestedNode) (i : Z) : option NestedNode :=
  if i <? 0 then None else cs !! Z.to_nat i.

(** [hitTestRec] closes over the array [res] and pushes to it; here [res]
    is passed in and handed back with the returned boolean. The call on
    [node.children[node.activeChildIdx]] is written as a walk down the
    children list to the index, which is what makes the recursion
    structural; [hitTestRec_unfold] below restates the body with
    [childAt] and a loop over the candidate children, as the source has
    it. When the index is out of range the candidate list is
    [[undefined]], and the call on [undefined] throws at [node.bounds]. *)
Fixpoint hitTestRec (node : NestedNode) (mouseCoordinate : Coordinate)
    (res : list NestedNode) {struct node}
    : option (bool * list NestedNode) :=
  let nodeBounds := bounds node in
  let thisNodeHit := boundsContainsCoordinate nodeBounds mouseCoordinate in
  let offsetMouseCoord :=
    offsetCoordinate mouseCoordinate (origin nodeBounds) in
  let all :=
    fix all (cs : list NestedNode) (childHit : bool) (res : list NestedNode)
        : option (bool * list NestedNode) :=
      match cs with
      | [] => Some (childHit, res)
      | child :: rest =>
          match hitTestRec child offsetMouseCoord res with
          | Some (h, res') => all rest (h || childHit) res'
          | None => None
          end
      end in
  let only :=
    fix only (cs : list NestedNode) (i : nat) (res : list NestedNode)
        : option (bool * list NestedNode) :=
      match cs, i with
      | [], _ => None
      | child :: _, O =>
          match hitTestRec child offsetMouseCoord res with
          | Some (h, res') => Some (h || false, res')
          | None => None
          end
      | _ :: rest, S i' => only rest i' res
      end in
  let visited :=
    match activeChildIdx node with
    | None => all (children node) false res
    | Some i => if i <? 0 then None else only (children node) (Z.to_nat i) res
    end in
  match visited with
  | Some (childHit, res') =>
      let hit := thisNodeHit && negb childHit in
      Some (hit, if hit then res' ++ [node] else res')
  | None => None
  end.

Definition area (n : NestedNode) : Z := height (bounds n) * width (bounds n).

(** The comparator handed to [res.sort]. *)
Definition compareArea (a b : NestedNode) : Z :=
  let areaA := area a in
  let areaB := area b in
  if areaB <? areaA then 1 else if areaA <? areaB then (-1) else 0.

(** [Array.prototype.sort(cmp)]: a stable sort (ECMAScript 2019); with a
    consistent comparator every stable sort gives the same array, here
    insertion from the right. *)
Fixpoint sortInsert (cmp : NestedNode → NestedNode → Z) (a : NestedNode)
    (l : list NestedNode) : list NestedNode :=
  match l with
  | [] => [a]
  | b :: l' => if cmp a b <=? 0 then a :: l else b :: sortInsert cmp a l'
  end.

Definition arraySort (cmp : NestedNode → NestedNode → Z)
    (l : list NestedNode) : list NestedNode :=
  foldr (sortInsert cmp) [] l.

Definition hitTest (node : NestedNode) (mouseCoordinate : Coordinate)
    : option (list NestedNode) :=
  match hitTestRec node mouseCoordinate [] with
  | Some (_, res) => Some (arraySort compareArea res)
  | None => None
  end.

(** ** Tree projector *)

(** [l.indexOf(x)]: the first index holding [x], or -1. *)
Fixpoint indexOfFrom (l : list Id) (x : Id) (i : Z) : Z :=
  match l with
  | [] => -1
  | y :: l' => if String.eqb y x then i else indexOfFrom l' x (i + 1)
  end.

Definition indexOf (l : list Id) (x : Id) : Z := indexOfFrom l x 0.

(** [node.children.filter(childId => nodes.get(childId) != null)]. *)
Definition nonNullChildren (nodes : gmap Id ClientNode) (node : ClientNode)
    : list Id :=
  filter (λ childId, is_Some (nodes !! childId)) (c_children node).

(** The inner function of [toNestedNode]. The [console.error] taken when a
    child id is dropped only writes to the console (its argument runs the
    same recursion over the same children once more), so it is left out of
    the returned value. *)
Fixpoint uiNodeToNestedNode (fuel : nat) (nodes : gmap Id ClientNode)
    (node : ClientNode) : option NestedNode :=
  match fuel with
  | O => None
  | S fuel' =>
      let nonNull := nonNullChildren nodes node in
      let activeChildIdx :=
        match c_activeChild node with
        | Some a => if truthy a then Some (indexOf nonNull a) else None
        | None => None
        end in
      cs ← mapM (λ childId,
                   nodes !! childId ≫= uiNodeToNestedNode fuel' nodes)
                nonNull;
      Some (mkNestedNode (c_id node) (c_name node) (c_attributes node) cs
              (c_bounds node) (c_tags node) activeChildIdx)
  end.

(** [toNestedNode]: [None] is fuel exhausted, [Some None] is the returned
    [undefined]. *)
Definition toNestedNode (fuel : nat) (rootId : Id)
    (nodes : gmap Id ClientNode) : option (option NestedNode) :=
  match nodes !! rootId with
  | Some root => Some <$> uiNodeToNestedNode fuel nodes root
  | None => Some None
  end.

(** ** Overlay offset accumulator *)

(** The [while (curId != null)] loop of [getTotalOffset], one iteration per
    unit of fuel. *)
Fixpoint getTotalOffsetLoop (fuel : nat) (nodes : gmap Id ClientNode)
    (curId : option Id) (offset : Coordinate) : option Coordinate :=
  match curId with
  | None => Some offset
  | Some i =>
      match fuel with
      | O => None
      | S fuel' =>
          let cur := nodes !! i in
          let offset' :=
            match cur with
            | Some c => mkCoordinate (cx offset + bx (c_bounds c))
                                     (cy offset + by_ (c_bounds c))
            | None => offset
            end in
          getTotalOffsetLoop fuel' nodes (cur ≫= c_parent) offset'
      end
  end.

Definition getTotalOffset (fuel : nat) (id : Id)
    (nodes : gmap Id ClientNode) : option Coordinate :=
  getTotalOffsetLoop fuel nodes (Some id) (mkCoordinate 0 0).

(** ** Positions in a nested tree

    JavaScript tells two nodes apart by object identity; here a node of a
    tree is told apart by its path from the root, the list of child
    indexes to follow. *)

Fixpoint subtreeAt (n : NestedNode) (p : list nat) : option NestedNode :=
  match p with
  | [] => Some n
  | i :: p' => children n !! i ≫= λ c, subtreeAt c p'
  end.

(** The nodes met on the way down a path, both ends included. *)
Fixpoint nodesAlong (n : NestedNode) (p : list nat)
    : option (list NestedNode) :=
  match p with
  | [] => Some [n]
  | i :: p' => children n !! i ≫= λ c, cons n <$> nodesAlong c p'
  end.

Definition sumOrigins (l : list NestedNode) : Coordinate :=
  mkCoordinate (foldr (λ n s, bx (bounds n) + s) 0 l)
               (foldr (λ n s, by_ (bounds n) + s) 0 l).

(** Pre-order on paths: a node comes before its descendants, and a child
    subtree before the subtrees of the children after it. *)
Fixpoint pathBefore (q p : list nat) : Prop :=
  match q, p with
  | [], [] => False
  | [], _ :: _ => True
  | _ :: _, [] => False
  | i :: q', j :: p' => (i < j)%nat ∨ (i = j ∧ pathBefore q' p')
  end.

(** [occurs t n]: some node of the tree [n] has id [t]. *)
Definition occurs (t : Id) (n : NestedNode) : Prop :=
  ∃ p m, subtreeAt n p = Some m ∧ id m = t.

Definition trivialFocus (root : NestedNode) : FocusState :=
  mkFocusState root root (mkCoordinate 0 0).

(** The invariant of [FocusState] with "descendant" read as proper
    descendant. *)
Definition properDescendantInvariant (fs : FocusState) : Prop :=
  (focusedRoot fs = actualRoot fs ∧
   focusedRootGlobalOffset fs = mkCoordinate 0 0) ∨
  (∃ p n, p ≠ [] ∧ subtreeAt (actualRoot fs) p = Some n ∧
          focusedRoot fs = zeroOrigin n).

(** ** Induction on nested nodes *)

Section NestedNodeInduction.
Variable P : NestedNode → Prop.
Hypothesis Hnode : ∀ i n a cs b t ai,
  Forall P cs → P (mkNestedNode i n a cs b t ai).

Fixpoint NestedNode_Forall_ind (node : NestedNode) : P node :=
  match node with
  | mkNestedNode i n a cs b t ai =>
      Hnode i n a cs b t ai
        ((fix go (l : list NestedNode) : Forall P l :=
            match l with
            | [] => @List.Forall_nil _ P
            | c :: l' =>
                @List.Forall_cons _ P c l' (NestedNode_Forall_ind c) (go l')
            end) cs)
  end.
End NestedNodeInduction.

(** ** Named pieces of the functions above, for the statements *)

(** The [for (const child of node.children)] loop of
    [findNodeAndGlobalOffsetRec], named. *)
Fixpoint findInChildren (cs : list NestedNode) (nextOffset : Coordinate)
    (root : NestedNode) (target : Id) : option FocusState :=
  match cs with
  | [] => None
  | child :: rest =>
      match findNodeAndGlobalOffsetRec child nextOffset root target with
      | Some offset => Some offset
      | None => findInChildren rest nextOffset root target
      end
  end.

Definition addOffset (a b : Coordinate) : Coordinate :=
  mkCoordinate (cx a + cx b) (cy a + cy b).

(** What a search yields: nothing, and then no node has the id; or the
    first node in pre-order with the id, its zeroed copy and the offsets
    summed on the way down to it. *)
Definition searchResult (node : NestedNode) (off : Coordinate)
    (root : NestedNode) (target : Id) (r : option FocusState) : Prop :=
  (r = None ∧ ¬ occurs target node) ∨
  (∃ p n along,
      subtreeAt node p = Some n ∧ id n = target ∧
      nodesAlong node p = Some along ∧
      (∀ q m, subtreeAt node q = Some m → id m = target → ¬ pathBefore q p) ∧
      r = Some (mkFocusState root (zeroOrigin n)
                  (addOffset off (sumOrigins along)))).

(** The candidate children of [hitTestRec]: all of them, or the one at
    [activeChildIdx]; [None] when that index holds no node, the case in
    which the loop's call throws. *)
Definition candidates (node : NestedNode) : option (list NestedNode) :=
  match activeChildIdx node with
  | None => Some (children node)
  | Some i => (λ c, [c]) <$> childAt (children node) i
  end.

(** The [for (const child of children)] loop of [hitTestRec]. *)
Fixpoint forChildren (cs : list NestedNode) (offsetMouseCoord : Coordinate)
    (childHit : bool) (res : list NestedNode)
    : option (bool * list NestedNode) :=
  match cs with
  | [] => Some (childHit, res)
  | child :: rest =>
      '(h, res') ← hitTestRec child offsetMouseCoord res;
      forChildren rest offsetMouseCoord (h || childHit) res'
  end.

(** The boolean a call of [hitTestRec] on [c] hands to the caller: whether
    [c] itself was pushed. *)
Definition reported (c : NestedNode) (m : Coordinate) : bool :=
  match hitTestRec c m [] with
  | Some (h, _) => h
  | None => false
  end.

(** An active-child index that points at a child. *)
Definition indexValid (n : NestedNode) : Prop :=
  match activeChildIdx n with
  | None => True
  | Some i => 0 ≤ i < Z.of_nat (length (children n))
  end.

(** Ordered by area, smallest first. *)
Definition areaLe (a b : NestedNode) : Prop := area a ≤ area b.

(** Every index stored in the tree is valid. *)
Definition wellIndexed (root : NestedNode) : Prop :=
  ∀ p n, subtreeAt root p = Some n → indexValid n.

(** Appending what a call pushed to what was already in [res]. *)
Definition pushedAfter (res : list NestedNode)
    (r : bool * list NestedNode) : bool * list NestedNode :=
  (r.1, res ++ r.2).

(** A path that hit testing can take: below a node with an active child
    index it goes through the child at that index only. *)
Fixpoint visiblePath (n : NestedNode) (p : list nat) : Prop :=
  match p with
  | [] => True
  | i :: p' =>
      (∀ k, activeChildIdx n = Some k → k = Z.of_nat i) ∧
      match children n !! i with
      | Some c => visiblePath c p'
      | None => False
      end
  end.

(** The ids of a tree, in pre-order. *)
Fixpoint ids (n : NestedNode) : list Id :=
  id n :: mjoin (ids <$> children n).

(** ** Node maps: links, cycles, and what a projection is *)

(** [childStep nodes a b]: the raw node under [a] lists [b] as a child and
    [b] resolves, so projecting [a] recurses into [b]. *)
Definition childStep (nodes : gmap Id ClientNode) (a b : Id) : Prop :=
  ∃ n, nodes !! a = Some n ∧ b ∈ c_children n ∧ is_Some (nodes !! b).

(** [parentStep nodes a b]: the raw node under [a] has parent id [b]. *)
Definition parentStep (nodes : gmap Id ClientNode) (a b : Id) : Prop :=
  ∃ n, nodes !! a = Some n ∧ c_parent n = Some b.

(** No id reachable from [a] lies on a cycle of [R]. *)
Definition acyclicFrom (R : relation Id) (a : Id) : Prop :=
  ∀ b, rtc R a b → ¬ tc R b b.

(** The invariant of a descent along [R] through the map: the ids passed
    so far are distinct, resolve, and lead to the current one. *)
Definition ancestors (nodes : gmap Id ClientNode) (R : relation Id)
    (seen : list Id) (cur : Id) : Prop :=
  NoDup seen ∧ (∀ a, a ∈ seen → is_Some (nodes !! a)) ∧
  (∀ a, a ∈ seen → tc R a cur) ∧ acyclicFrom R cur.

(** [Projected nodes key t]: [t] is the raw node under [key] with its
    child ids that resolve, in their order, each projected in turn. *)
#[local] Unset Elimination Schemes.
Inductive Projected (nodes : gmap Id ClientNode) : Id → NestedNode → Prop :=
| Projected_node key raw t :
    nodes !! key = Some raw →
    id t = c_id raw → name t = c_name raw →
    attributes t = c_attributes raw → bounds t = c_bounds raw →
    tags t = c_tags raw →
    Forall2 (Projected nodes) (nonNullChildren nodes raw) (children t) →
    Projected nodes key t.
#[local] Set Elimination Schemes.

(** The nodes visited by [getTotalOffset]: from an id up the parent links,
    until the link is null or does not resolve. *)
Inductive parentChain (nodes : gmap Id ClientNode)
    : option Id → list ClientNode → Prop :=
| parentChain_null : parentChain nodes None []
| parentChain_unresolved i :
    nodes !! i = None → parentChain nodes (Some i) []
| parentChain_step i n l :
    nodes !! i = Some n → parentChain nodes (c_parent n) l →
    parentChain nodes (Some i) (n :: l).

Definition sumRawOrigins (l : list ClientNode) : Coordinate :=
  mkCoordinate (foldr (λ n s, bx (c_bounds n) + s) 0 l)
               (foldr (λ n s, by_ (c_bounds n) + s) 0 l).

(** ** Trees used as examples *)

Definition exampleNode (i : Id) (b : Bounds) (cs : list NestedNode)
    (ai : option Z) : NestedNode :=
  mkNestedNode i i [] cs b [] ai.

(** Root R at (0,0,200,200), child A at (10,10,50,50), grandchild B at
    (5,5,20,20). *)
Definition treeB : NestedNode :=
  exampleNode "B" (mkBounds 5 5 20 20) [] None.
Definition treeA : NestedNode :=
  exampleNode "A" (mkBounds 10 10 50 50) [treeB] None.
Definition treeR : NestedNode :=
  exampleNode "R" (mkBounds 0 0 200 200) [treeA] None.

(** A root that does not sit at the origin. *)
Definition shiftedRoot : NestedNode :=
  exampleNode "r" (mkBounds 5 5 10 10) [] None.

(** A root over two leaves of areas 400 and 100, both under the pointer
    (5,5). *)
Definition leafLarge : NestedNode :=
  exampleNode "large" (mkBounds 0 0 20 20) [] None.
Definition leafSmall : NestedNode :=
  exampleNode "small" (mkBounds 0 0 10 10) [] None.
Definition twoLeaves : NestedNode :=
  exampleNode "root" (mkBounds 0 0 100 100) [leafLarge; leafSmall] None.

(** Overlapping children D and E, both at (0,0,50,50), E the active child. *)
Definition tabD : NestedNode :=
  exampleNode "D" (mkBounds 0 0 50 50) [] None.
Definition tabE : NestedNode :=
  exampleNode "E" (mkBounds 0 0 50 50) [] None.
Definition tabHost : NestedNode :=
  exampleNode "host" (mkBounds 0 0 100 100) [tabD; tabE] (Some 1).

(** A root at (0,0,100,100) over a child C at (10,10,20,20). *)
Definition childC : NestedNode :=
  exampleNode "C" (mkBounds 10 10 20 20) [] None.
Definition rootOverC : NestedNode :=
  exampleNode "root" (mkBounds 0 0 100 100) [childC] None.

(** ** Node maps used as examples *)

Definition exampleRaw (i : Id) (parent : option Id) (b : Bounds)
    (cs : list Id) (active : option Id) : ClientNode :=
  mkClientNode i parent i [] cs b [] active.

Definition rawB : ClientNode :=
  exampleRaw "B" (Some "A") (mkBounds 1 2 10 10) [] None.
Definition rawC : ClientNode :=
  exampleRaw "C" (Some "A") (mkBounds 3 4 10 10) [] None.

(** A lists the children B and C, C is the active child. *)
Definition activeA : ClientNode :=
  exampleRaw "A" None (mkBounds 0 0 100 100) ["B"; "C"] (Some "C").
Definition activeMap : gmap Id ClientNode :=
  <["A" := activeA]> (<["B" := rawB]> (<["C" := rawC]> ∅)).

(** A lists the children B and "ghost"; "ghost" is not in the map and is
    the active child of A. *)
Definition danglingA : ClientNode :=
  exampleRaw "A" None (mkBounds 0 0 100 100) ["B"; "ghost"] (Some "ghost").
Definition danglingMap : gmap Id ClientNode :=
  <["A" := danglingA]> (<["B" := rawB]> ∅).

(** A lists itself as a child. *)
Definition cyclicA : ClientNode :=
  exampleRaw "A" None (mkBounds 0 0 100 100) ["A"] None.
Definition cyclicMap : gmap Id ClientNode := <["A" := cyclicA]> ∅.

(** The projections of the first two maps from A. *)
Definition nestedB : NestedNode :=
  exampleNode "B" (mkBounds 1 2 10 10) [] None.
Definition nestedC : NestedNode :=
  exampleNode "C" (mkBounds 3 4 10 10) [] None.
Definition nestedActiveA : NestedNode :=
  exampleNode "A" (mkBounds 0 0 100 100) [nestedB; nestedC] (Some 1).
Definition nestedDanglingA : NestedNode :=
  exampleNode "A" (mkBounds 0 0 100 100) [nestedB] (Some (-1)).

(** B under A: A at (5,6), B at (1,2). *)
Definition chainMap : gmap Id ClientNode :=
  <["A" := exampleRaw "A" None (mkBounds 5 6 100 100) ["B"] None]>
  (<["B" := exampleRaw "B" (Some "A") (mkBounds 1 2 10 10) [] None]> ∅).

(** ** The renderer, the overlay and the callers *)

(** The children [Visualization2DNode] draws: the active child alone when
    the index is set and within range, all children otherwise. Under the
    guard the read [node.children[node.activeChildIdx]] is a child; the
    [None] branch is never taken. *)
Definition nestedChildren (node : NestedNode) : list NestedNode :=
  match activeChildIdx node with
  | Some i =>
      if (0 <=? i) && (i <? Z.of_nat (length (children node))) then
        match childAt (children node) i with
        | Some c => [c]
        | None => []
        end
      else children node
  | None => children node
  end.

(** [Drawn root d]: rendering [root] instantiates a [Visualization2DNode]
    for [d], the component being rendered for the node and, in turn, for
    each of its [nestedChildren]. *)
Inductive Drawn : NestedNode → NestedNode → Prop :=
| Drawn_self n : Drawn n n
| Drawn_child n c d : c ∈ nestedChildren n → Drawn c d → Drawn n d.

(** The coordinate [hitTestRec] is called with on the node at a path, when
    the call on the root is given [m]: each level subtracts the origin of
    the node above. *)
Fixpoint pointerAt (n : NestedNode) (p : list nat) (m : Coordinate)
    : option Coordinate :=
  match p with
  | [] => Some m
  | i :: p' =>
      children n !! i ≫=
        λ c, pointerAt c p' (offsetCoordinate m (origin (bounds n)))
  end.


(** The [useMemo] of [Visualization2D]: the snapshot node is the root of
    the projection, then the focus is resolved. [snapshot] is the
    snapshot's [nodeId], [None] when there is no snapshot. The inner
    [None] is the [undefined] that makes the component render nothing. *)
Definition focusStateOf (fuel : nat) (snapshot : option Id)
    (nodes : gmap Id ClientNode) (focusedNodeId : option Id)
    : option (option FocusState) :=
  match snapshot with
  | None => Some None
  | Some nodeId =>
      match toNestedNode fuel nodeId nodes with
      | Some (Some rootNode) =>
          Some (Some (caclulateFocusState rootNode focusedNodeId))
      | Some None => Some None
      | None => None
      end
  end.



(** A map whose links agree: a node is stored under its own id, and a
    child that resolves names the node listing it as its parent. *)
Definition linked (nodes : gmap Id ClientNode) : Prop :=
  (∀ k n, nodes !! k = Some n → c_id n = k) ∧
  (∀ k n c cn, nodes !! k = Some n → c ∈ c_children n →
               nodes !! c = Some cn → c_parent cn = Some k).

(** Every active child that is set is a child that resolves. *)
Definition activeListed (nodes : gmap Id ClientNode) : Prop :=
  ∀ k n a, nodes !! k = Some n → c_activeChild n = Some a →
           truthy a = true → a ∈ nonNullChildren nodes n.

(** The index of a projected node: unset, the -1 of [indexOf], or a
    position in the children list. *)
Definition indexOrMinusOne (n : NestedNode) : Prop :=
  match activeChildIdx n with
  | None => True
  | Some i => -1 ≤ i < Z.of_nat (length (children n))
  end.


(** A and B name each other as parent. *)
Definition parentCycleMap : gmap Id ClientNode :=
  <["A" := exampleRaw "A" (Some "B") (mkBounds 5 6 100 100) [] None]>
  (<["B" := exampleRaw "B" (Some "A") (mkBounds 1 2 10 10) [] None]> ∅).

(** The projection of [chainMap] from A. *)
Definition nestedChainA : NestedNode :=
  exampleNode "A" (mkBounds 5 6 100 100) [nestedB] None.

(** * Theorems *)

(** ** The focus resolver: what the search returns *)


Lemma findNodeAndGlobalOffsetRec_unfold node globalOffset root target :
  findNodeAndGlobalOffsetRec node globalOffset root target =
  let nextOffset :=
    mkCoordinate (cx globalOffset + bx (bounds node))
                 (cy globalOffset + by_ (bounds node)) in
  if String.eqb (id node) target then
    Some (mkFocusState root (zeroOrigin node) nextOffset)
  else findInChildren (children node) nextOffset root target.
Proof.
  destruct node as [i n a cs b t ai]; simpl.
  destruct (String.eqb i target); [done|].
  induction cs as [|c cs IH]; simpl; [done|].
  by rewrite IH.
Qed.


Lemma sumOrigins_cons n l :
  sumOrigins (n :: l) = addOffset (origin (bounds n)) (sumOrigins l).
Proof. done. Qed.

Lemma addOffset_assoc a b c :
  addOffset (addOffset a b) c = addOffset a (addOffset b c).
Proof. unfold addOffset; simpl; f_equal; lia. Qed.

Lemma addOffset_zero_l a : addOffset (mkCoordinate 0 0) a = a.
Proof. destruct a; unfold addOffset; simpl; f_equal; lia. Qed.

Lemma addOffset_zero_r a : addOffset a (mkCoordinate 0 0) = a.
Proof. destruct a; unfold addOffset; simpl; f_equal; lia. Qed.

Lemma findInChildren_result cs off root target :
  Forall (λ c, ∀ o, searchResult c o root target
                      (findNodeAndGlobalOffsetRec c o root target)) cs →
  (findInChildren cs off root target = None ∧
   ∀ c, c ∈ cs → ¬ occurs target c) ∨
  (∃ k c p n along,
      cs !! k = Some c ∧
      (∀ j c', (j < k)%nat → cs !! j = Some c' → ¬ occurs target c') ∧
      subtreeAt c p = Some n ∧ id n = target ∧
      nodesAlong c p = Some along ∧
      (∀ q m, subtreeAt c q = Some m → id m = target → ¬ pathBefore q p) ∧
      findInChildren cs off root target =
        Some (mkFocusState root (zeroOrigin n)
                (addOffset off (sumOrigins along)))).
Proof.
  induction 1 as [|c cs Hc _ IH]; simpl.
  - left. split; [done|]. intros c Hin. by apply elem_of_nil in Hin.
  - destruct (Hc off) as [[-> Hno]|(p & n & along & Hp & Hid & Hal & Hfst & ->)].
    + destruct IH as [[-> Hall]|(k & c' & p & n & along & Hk & Hlt & Hrest)].
      * left. split; [done|]. intros d [->|Hd]%elem_of_cons; auto.
      * right. exists (S k), c', p, n, along. split; [done|].
        split; [|done].
        intros [|j] d Hj Hd; simpl in Hd.
        -- by injection Hd as <-.
        -- apply (Hlt j d); [lia|done].
    + right. exists 0%nat, c, p, n, along. repeat split; try done.
      intros j d Hj. lia.
Qed.

Lemma findNodeAndGlobalOffsetRec_result node :
  ∀ off root target,
    searchResult node off root target
      (findNodeAndGlobalOffsetRec node off root target).
Proof.
  induction node as [i nm a cs b t ai IH] using NestedNode_Forall_ind.
  intros off root target.
  rewrite findNodeAndGlobalOffsetRec_unfold. cbn [id children bounds].
  set (node := mkNestedNode i nm a cs b t ai).
  destruct (String.eqb i target) eqn:Heq.
  - apply String.eqb_eq in Heq. right.
    exists [], node, [node]. repeat split; try done.
    + intros [|j q] m _ _; simpl; tauto.
    + unfold addOffset; simpl. do 3 f_equal; lia.
  - apply String.eqb_neq in Heq.
    set (next := mkCoordinate (cx off + bx b) (cy off + by_ b)).
    assert (Hall : Forall (λ c, ∀ o, searchResult c o root target
                     (findNodeAndGlobalOffsetRec c o root target)) cs).
    { eapply Forall_impl; [exact IH|]. intros c Hc o. apply Hc. }
    destruct (findInChildren_result cs next root target Hall)
      as [[-> Hno]|(k & c & p & n & along & Hk & Hlt & Hp & Hid & Hal & Hfst & ->)].
    + left. split; [done|]. intros ([|j q] & m & Hm & Hidm); simpl in Hm.
      * injection Hm as <-. done.
      * destruct (cs !! j) as [c|] eqn:Hj; simpl in Hm; [|done].
        apply (Hno c); [by eapply list_elem_of_lookup_2|]. by exists q, m.
    + right. exists (k :: p), n, (node :: along). simpl.
      rewrite Hk; simpl. rewrite Hal; simpl. repeat split; try done.
      * intros [|j q] m Hm Hidm; simpl in Hm |- *.
        -- injection Hm as <-. done.
        -- destruct (cs !! j) as [c'|] eqn:Hj; simpl in Hm; [|done].
           intros [Hjk|[-> Hq]].
           ++ apply (Hlt j c' Hjk Hj). by exists q, m.
           ++ rewrite Hk in Hj. injection Hj as <-. by apply (Hfst q m).
      * unfold addOffset, next; simpl. do 3 f_equal; lia.
Qed.

(** C3. When the target id occurs in the tree, [caclulateFocusState]
    returns the original root as [actualRoot], as [focusedRoot] the copy
    of the first node in pre-order carrying the id, with [bounds.x] and
    [bounds.y] set to 0 and every other field as it was, and as
    [focusedRootGlobalOffset] the sum of [bounds.x], [bounds.y] over the
    nodes on the path from the root to that node, both included. For R at
    (0,0,200,200) over A at (10,10,50,50) over B at (5,5,20,20) and target
    B, the offset is (15,15) and the focused bounds are (0,0,20,20). *)
Theorem caclulateFocusState_found :
  (∀ root target,
      occurs target root →
      ∃ p n along,
        subtreeAt root p = Some n ∧ id n = target ∧
        nodesAlong root p = Some along ∧
        (∀ q m, subtreeAt root q = Some m → id m = target →
                ¬ pathBefore q p) ∧
        caclulateFocusState root (Some target) =
          mkFocusState root (zeroOrigin n) (sumOrigins along) ∧
        bounds (zeroOrigin n) =
          mkBounds 0 0 (width (bounds n)) (height (bounds n)) ∧
        id (zeroOrigin n) = id n ∧ name (zeroOrigin n) = name n ∧
        attributes (zeroOrigin n) = attributes n ∧
        children (zeroOrigin n) = children n ∧
        tags (zeroOrigin n) = tags n ∧
        activeChildIdx (zeroOrigin n) = activeChildIdx n) ∧
  (let fs := caclulateFocusState treeR (Some "B") in
   focusedRootGlobalOffset fs = mkCoordinate 15 15 ∧
   bounds (focusedRoot fs) = mkBounds 0 0 20 20 ∧
   focusedRoot fs = zeroOrigin treeB ∧ actualRoot fs = treeR).
Proof.
  split; [|done].
  intros root target Hocc. unfold caclulateFocusState.
  destruct (findNodeAndGlobalOffsetRec_result root (mkCoordinate 0 0)
              root target)
    as [[_ Hno]|(p & n & along & Hp & Hid & Hal & Hfst & ->)]; [done|].
  exists p, n, along. rewrite addOffset_zero_l.
  repeat split; done.
Qed.

Lemma caclulateFocusState_found_witness :
  ∃ p n along,
    subtreeAt treeR p = Some n ∧ id n = "B" ∧
    nodesAlong treeR p = Some along ∧
    (∀ q m, subtreeAt treeR q = Some m → id m = "B" → ¬ pathBefore q p) ∧
    caclulateFocusState treeR (Some "B") =
      mkFocusState treeR (zeroOrigin n) (sumOrigins along) ∧
    bounds (zeroOrigin n) =
      mkBounds 0 0 (width (bounds n)) (height (bounds n)) ∧
    id (zeroOrigin n) = id n ∧ name (zeroOrigin n) = name n ∧
    attributes (zeroOrigin n) = attributes n ∧
    children (zeroOrigin n) = children n ∧
    tags (zeroOrigin n) = tags n ∧
    activeChildIdx (zeroOrigin n) = activeChildIdx n.
Proof.
  apply (proj1 caclulateFocusState_found treeR "B").
  exists [0%nat; 0%nat], treeB. split; reflexivity.
Defined.

(** C8. [caclulateFocusState] returns the trivial state (the root as
    actual and as focused root, offset (0,0)) when no target is given, and
    also when the target id occurs nowhere in the tree: the search finding
    nothing is answered by the fallback, not by an error. *)
Theorem caclulateFocusState_trivial :
  (∀ root, caclulateFocusState root None = trivialFocus root) ∧
  (∀ root target,
      ¬ occurs target root →
      caclulateFocusState root (Some target) = trivialFocus root) ∧
  caclulateFocusState treeR (Some "nonexistent-id") =
    mkFocusState treeR treeR (mkCoordinate 0 0).
Proof.
  split; [done|]. split; [|done].
  intros root target Hno. unfold caclulateFocusState.
  destruct (findNodeAndGlobalOffsetRec_result root (mkCoordinate 0 0)
              root target)
    as [[-> _]|(p & n & along & Hp & Hid & _)]; [done|].
  destruct Hno. by exists p, n.
Qed.

Lemma occurs_treeR t : occurs t treeR → t = "R" ∨ t = "A" ∨ t = "B".
Proof.
  intros (p & m & Hp & <-).
  destruct p as [|[|i] [|[|j] [|[|k] p]]]; simpl in Hp;
    try discriminate; injection Hp as <-; auto.
Qed.

Lemma caclulateFocusState_trivial_witness :
  caclulateFocusState treeR (Some "nonexistent-id") = trivialFocus treeR.
Proof.
  apply (proj1 (proj2 caclulateFocusState_trivial) treeR "nonexistent-id").
  intros H. apply occurs_treeR in H.
  destruct H as [H|[H|H]]; discriminate H.
Defined.

(** C6, the claim as stated fails: focusing the root's own id when the
    root is not at the origin gives a zeroed copy of the root, which is
    not the root, under a non-zero offset, and the root has no proper
    descendant. *)
Lemma properDescendantInvariant_fails :
  ¬ properDescendantInvariant (caclulateFocusState shiftedRoot (Some "r")).
Proof.
  intros [[H _]|(p & n & Hp & Hsub & _)].
  - discriminate H.
  - destruct p as [|i p]; [done|]. simpl in Hsub. discriminate Hsub.
Qed.

(** C6, amended. [actualRoot] is always the root. When the target is the
    root's own id, [focusedRoot] is the zeroed copy of the root and the
    offset is the root's own [bounds.x], [bounds.y]. For any other target
    (or none), either [focusedRoot] is the root itself under offset (0,0),
    or it is the zeroed copy of a proper descendant of the root. *)
Theorem caclulateFocusState_invariant root target :
  let fs := caclulateFocusState root target in
  actualRoot fs = root ∧
  (target = Some (id root) →
     focusedRoot fs = zeroOrigin root ∧
     focusedRootGlobalOffset fs = origin (bounds root)) ∧
  (target ≠ Some (id root) → properDescendantInvariant fs).
Proof.
  destruct target as [t|]; simpl.
  2: { split; [done|]. split; [done|]. intros _. by left. }
  destruct (findNodeAndGlobalOffsetRec_result root (mkCoordinate 0 0)
              root t)
    as [[-> Hno]|(p & n & along & Hp & Hid & Hal & Hfst & ->)]; simpl.
  - split; [done|]. split.
    + intros [= ->]. destruct Hno. by exists [], root.
    + intros _. by left.
  - split; [done|]. split.
    + intros [= ->]. destruct p as [|i p].
      * simpl in Hp, Hal. injection Hp as <-. injection Hal as <-.
        split; [done|]. unfold addOffset, origin; simpl. f_equal; lia.
      * exfalso. by apply (Hfst [] root).
    + intros Hne. right. exists p, n. split; [|done].
      intros ->. simpl in Hp. congruence.
Qed.

Lemma caclulateFocusState_invariant_witness :
  focusedRoot (caclulateFocusState shiftedRoot (Some "r")) =
    zeroOrigin shiftedRoot ∧
  focusedRootGlobalOffset (caclulateFocusState shiftedRoot (Some "r")) =
    mkCoordinate 5 5.
Proof.
  apply (proj1 (proj2 (caclulateFocusState_invariant shiftedRoot (Some "r")))).
  reflexivity.
Defined.

(** ** The hit tester *)

Lemma hitTestRec_unfold node mouseCoordinate res :
  hitTestRec node mouseCoordinate res =
  cs ← candidates node;
  '(childHit, res') ←
    forChildren cs (offsetCoordinate mouseCoordinate (origin (bounds node)))
      false res;
  let hit :=
    boundsContainsCoordinate (bounds node) mouseCoordinate && negb childHit in
  Some (hit, if hit then res' ++ [node] else res').
Proof.
  destruct node as [i nm a cs b t ai]; unfold candidates; simpl.
  set (off := offsetCoordinate mouseCoordinate (origin b)).
  destruct ai as [k|]; simpl.
  - generalize (mkNestedNode i nm a cs b t (Some k)) as nd. intros nd.
    unfold childAt. destruct (k <? 0); [done|].
    generalize (Z.to_nat k) as j.
    induction cs as [|c cs IH]; intros [|j]; simpl; done.
  - generalize (mkNestedNode i nm a cs b t None) as nd. intros nd.
    match goal with
    | |- match ?f cs false res with _ => _ end = _ =>
        assert (Hall : ∀ l h r, f l h r = forChildren l off h r)
    end.
    { induction l as [|c l IH]; intros h r; simpl; [done|].
      destruct (hitTestRec c off r) as [[h' r']|]; simpl; [|done].
      apply IH. }
    rewrite Hall. by destruct (forChildren cs off false res) as [[h r]|].
Qed.

(** [res] is only ever appended to: a call on a non-empty [res] is the call
    on the empty one, with what it pushed put after [res]. *)
Lemma forChildren_acc cs off :
  Forall (λ c, ∀ m res,
            hitTestRec c m res = pushedAfter res <$> hitTestRec c m []) cs →
  ∀ h res,
    forChildren cs off h res = pushedAfter res <$> forChildren cs off h [].
Proof.
  induction 1 as [|c cs Hc _ IH]; intros h res; simpl.
  - unfold pushedAfter; simpl. by rewrite app_nil_r.
  - rewrite (Hc off res).
    destruct (hitTestRec c off []) as [[h1 r1]|]; simpl; [|done].
    rewrite (IH _ (res ++ r1)), (IH _ r1).
    destruct (forChildren cs off (h1 || h) []) as [[h2 r2]|]; simpl; [|done].
    unfold pushedAfter; simpl. by rewrite app_assoc.
Qed.

Lemma hitTestRec_acc node :
  ∀ m res, hitTestRec node m res = pushedAfter res <$> hitTestRec node m [].
Proof.
  induction node as [i nm a cs b t ai IH] using NestedNode_Forall_ind.
  intros m res. rewrite !hitTestRec_unfold.
  set (nd := mkNestedNode i nm a cs b t ai).
  destruct (candidates nd) as [cands|] eqn:Hc; simpl; [|done].
  assert (Hall : Forall (λ c, ∀ m res,
            hitTestRec c m res = pushedAfter res <$> hitTestRec c m []) cands).
  { unfold candidates in Hc. simpl in Hc. destruct ai as [k|].
    - unfold childAt in Hc. destruct (k <? 0); [done|].
      destruct (cs !! Z.to_nat k) as [c|] eqn:Hk; simpl in Hc; [|done].
      injection Hc as <-. apply Forall_singleton.
      eapply (proj1 (Forall_lookup _ _) IH); eauto.
    - by injection Hc as <-. }
  rewrite (forChildren_acc _ _ Hall false res).
  destruct (forChildren cands _ false []) as [[h r]|]; simpl; [|done].
  unfold pushedAfter; simpl.
  destruct (boundsContainsCoordinate b m && negb h); simpl; [|done].
  by rewrite app_assoc.
Qed.

(** *** Sorting by area *)

Lemma compareArea_le a b : (compareArea a b <=? 0) = true ↔ areaLe a b.
Proof.
  unfold compareArea, areaLe.
  destruct (area b <? area a) eqn:H1; [|destruct (area a <? area b) eqn:H2];
    rewrite Z.leb_le; lia.
Qed.

Lemma sortInsert_Permutation cmp a l : sortInsert cmp a l ≡ₚ a :: l.
Proof.
  induction l as [|b l IH]; simpl; [done|].
  destruct (cmp a b <=? 0); [done|].
  rewrite IH. apply Permutation_swap.
Qed.

Lemma arraySort_Permutation cmp l : arraySort cmp l ≡ₚ l.
Proof.
  induction l as [|a l IH]; simpl; [done|].
  by rewrite sortInsert_Permutation, IH.
Qed.

Lemma sortInsert_sorted a l :
  StronglySorted areaLe l → StronglySorted areaLe (sortInsert compareArea a l).
Proof.
  induction 1 as [|b l Hl IH Hb]; simpl.
  - repeat constructor.
  - destruct (compareArea a b <=? 0) eqn:Hab.
    + apply compareArea_le in Hab. constructor; [by constructor|].
      constructor; [done|].
      eapply Forall_impl; [exact Hb|]. unfold areaLe in *. intros; lia.
    + assert (areaLe b a).
      { destruct (Z.le_gt_cases (area a) (area b)) as [Hle|Hgt].
        - apply compareArea_le in Hle. congruence.
        - unfold areaLe. lia. }
      constructor; [done|].
      rewrite sortInsert_Permutation. by constructor.
Qed.

Lemma arraySort_sorted l : StronglySorted areaLe (arraySort compareArea l).
Proof.
  induction l as [|a l IH]; simpl; [constructor|].
  by apply sortInsert_sorted.
Qed.

(** *** Totality on trees with valid indexes *)

Lemma wellIndexed_child root j c :
  wellIndexed root → children root !! j = Some c → wellIndexed c.
Proof.
  intros Hw Hj p n Hp. apply (Hw (j :: p)). simpl. by rewrite Hj.
Qed.

Lemma candidates_valid nd :
  indexValid nd →
  ∃ cs, candidates nd = Some cs ∧ ∀ c, c ∈ cs → c ∈ children nd.
Proof.
  unfold indexValid, candidates, childAt.
  destruct (activeChildIdx nd) as [k|]; [|eauto].
  intros [H0 Hlen].
  destruct (k <? 0) eqn:Hk; [apply Z.ltb_lt in Hk; lia|].
  destruct (lookup_lt_is_Some_2 (children nd) (Z.to_nat k)) as [c Hc]; [lia|].
  rewrite Hc; simpl. exists [c]. split; [done|].
  intros d ->%list_elem_of_singleton. by eapply list_elem_of_lookup_2.
Qed.

Lemma hitTestRec_total node :
  wellIndexed node → ∀ m res, is_Some (hitTestRec node m res).
Proof.
  induction node as [i nm a cs b t ai IH] using NestedNode_Forall_ind.
  intros Hw m res. rewrite hitTestRec_unfold.
  set (nd := mkNestedNode i nm a cs b t ai) in *.
  destruct (candidates_valid nd) as (cands & -> & Hsub); [by apply (Hw [])|].
  simpl.
  assert (Hall : ∀ off h r, is_Some (forChildren cands off h r)).
  { clear res. induction cands as [|c cands IHc]; intros off h r; simpl; [done|].
    assert (Hc : c ∈ cs) by (apply Hsub; left).
    destruct (proj1 (list_elem_of_lookup _ _) Hc) as [j Hj].
    destruct (proj1 (Forall_lookup _ _) IH j c Hj
                (wellIndexed_child nd j c Hw Hj) off r) as [[h1 r1] ->].
    simpl. apply IHc. intros d Hd. apply Hsub. by right. }
  destruct (Hall (offsetCoordinate m (origin b)) false res) as [[h r] ->].
  done.
Qed.

(** C9. The list returned by [hitTest] is in ascending order of
    [bounds.height * bounds.width]: every element's area is at most that of
    every element after it. [hitTest] does return a list on every tree
    whose active-child indexes are valid. Two terminal hits of areas 400
    and 100 come back smallest first. *)
Theorem hitTest_sorted :
  (∀ node m l, hitTest node m = Some l → StronglySorted areaLe l) ∧
  (∀ node m, wellIndexed node →
      ∃ l, hitTest node m = Some l ∧ StronglySorted areaLe l) ∧
  (area leafLarge = 400 ∧ area leafSmall = 100 ∧
   hitTest twoLeaves (mkCoordinate 5 5) = Some [leafSmall; leafLarge]).
Proof.
  assert (H : ∀ node m l, hitTest node m = Some l → StronglySorted areaLe l).
  { intros node m l. unfold hitTest.
    destruct (hitTestRec node m []) as [[h r]|]; [|done].
    intros [= <-]. apply arraySort_sorted. }
  split; [exact H|]. split; [|done].
  intros node m Hw. unfold hitTest in *.
  destruct (hitTestRec_total node Hw m []) as [[h r] Hr].
  specialize (H node m). rewrite Hr in *. eauto.
Qed.

Lemma hitTest_sorted_witness :
  StronglySorted areaLe [leafSmall; leafLarge].
Proof.
  apply (proj1 hitTest_sorted twoLeaves (mkCoordinate 5 5)).
  reflexivity.
Defined.

(** *** Active-child pruning *)

Lemma candidates_elem nd cs c :
  candidates nd = Some cs → c ∈ cs →
  ∃ j, children nd !! j = Some c ∧
       ∀ k, activeChildIdx nd = Some k → k = Z.of_nat j.
Proof.
  unfold candidates, childAt. destruct (activeChildIdx nd) as [k|].
  - destruct (k <? 0) eqn:Hk; [done|]. apply Z.ltb_ge in Hk.
    destruct (children nd !! Z.to_nat k) as [d|] eqn:Hd; simpl; [|done].
    intros [= <-] ->%list_elem_of_singleton.
    exists (Z.to_nat k). split; [done|]. intros ? [= <-]. lia.
  - intros [= <-] [j Hj]%list_elem_of_lookup. exists j. by split.
Qed.

Lemma forChildren_elem cs off (P : NestedNode → NestedNode → Prop) :
  Forall (λ c, ∀ m h r, hitTestRec c m [] = Some (h, r) →
                        ∀ d, d ∈ r → P c d) cs →
  ∀ h0 h r, forChildren cs off h0 [] = Some (h, r) →
    ∀ d, d ∈ r → ∃ c, c ∈ cs ∧ P c d.
Proof.
  induction 1 as [|c cs Hc _ IH]; intros h0 h r; simpl.
  - intros [= <- <-] d Hd. by apply elem_of_nil in Hd.
  - destruct (hitTestRec c off []) as [[h1 r1]|] eqn:H1; simpl; [|done].
    rewrite forChildren_acc by (apply Forall_forall; intros; apply hitTestRec_acc).
    destruct (forChildren cs off (h1 || h0) []) as [[h2 r2]|] eqn:H2;
      simpl; [|done].
    unfold pushedAfter; simpl. intros [= <- <-] d [Hd|Hd]%elem_of_app.
    + exists c. split; [left|]. by eapply Hc.
    + destruct (IH _ _ _ H2 d Hd) as (c' & Hc' & HP).
      exists c'. split; [by right|done].
Qed.

(** Every node pushed by [hitTestRec] sits on a visible path. *)
Lemma hitTestRec_visible node :
  ∀ m h r, hitTestRec node m [] = Some (h, r) →
    ∀ d, d ∈ r → ∃ p, visiblePath node p ∧ subtreeAt node p = Some d.
Proof.
  induction node as [i nm a cs b t ai IH] using NestedNode_Forall_ind.
  intros m h r. rewrite hitTestRec_unfold.
  set (nd := mkNestedNode i nm a cs b t ai) in *.
  destruct (candidates nd) as [cands|] eqn:Hc; simpl; [|done].
  destruct (forChildren cands _ false []) as [[h1 r1]|] eqn:Hf; simpl; [|done].
  assert (Hin : ∀ d, d ∈ r1 →
            ∃ p, visiblePath nd p ∧ subtreeAt nd p = Some d).
  { intros d Hd.
    destruct (forChildren_elem cands (offsetCoordinate m (origin b))
                (λ c d, ∃ p, visiblePath c p ∧ subtreeAt c p = Some d))
      with (h0 := false) (h := h1) (r := r1) (d := d)
      as (c & Hcin & p & Hvis & Hsub); [|done|done|].
    - apply Forall_forall. intros c Hcin.
      destruct (candidates_elem nd cands c Hc Hcin) as (j & Hj & _).
      exact (proj1 (Forall_lookup _ _) IH j c Hj).
    - destruct (candidates_elem nd cands c Hc Hcin) as (j & Hj & Hk).
      exists (j :: p). simpl in Hj |- *. rewrite Hj. simpl. by split. }
  destruct (boundsContainsCoordinate b m && negb h1); simpl;
    intros [= <- <-] d Hd; [|by apply Hin].
  apply elem_of_app in Hd as [Hd| ->%list_elem_of_singleton]; [by apply Hin|].
  by exists [].
Qed.

Lemma hitTest_visible root m l :
  hitTest root m = Some l →
  ∀ d, d ∈ l → ∃ p, visiblePath root p ∧ subtreeAt root p = Some d.
Proof.
  unfold hitTest.
  destruct (hitTestRec root m []) as [[h r]|] eqn:Hr; [|done].
  intros [= <-] d Hd. rewrite arraySort_Permutation in Hd.
  by eapply hitTestRec_visible.
Qed.

(** *** Paths and unique ids *)

Lemma subtreeAt_app n p q :
  subtreeAt n (p ++ q) = subtreeAt n p ≫= λ m, subtreeAt m q.
Proof.
  revert n. induction p as [|i p IH]; intros n; simpl; [done|].
  destruct (children n !! i) as [c|]; simpl; [apply IH|done].
Qed.

Lemma visiblePath_app n p q m :
  visiblePath n (p ++ q) → subtreeAt n p = Some m → visiblePath m q.
Proof.
  revert n. induction p as [|i p IH]; intros n; simpl.
  - by intros ? [= <-].
  - intros [_ Hv]. destruct (children n !! i) as [c|]; simpl; [|done].
    by apply IH.
Qed.

Lemma subtreeAt_id_in n :
  ∀ p d, subtreeAt n p = Some d → id d ∈ ids n.
Proof.
  induction n as [i nm a cs b t ai IH] using NestedNode_Forall_ind.
  intros [|j p] d; simpl.
  - intros [= <-]. left.
  - destruct (cs !! j) as [c|] eqn:Hj; simpl; [|done]. intros Hd.
    right. apply list_elem_of_join. exists (ids c). split.
    + exact (proj1 (Forall_lookup _ _) IH j c Hj p d Hd).
    + apply list_elem_of_fmap. exists c. split; [done|].
      by eapply list_elem_of_lookup_2.
Qed.

Lemma NoDup_concat_lookup {A} (ls : list (list A)) i j l1 l2 x :
  NoDup (mjoin ls) → ls !! i = Some l1 → ls !! j = Some l2 →
  x ∈ l1 → x ∈ l2 → i = j.
Proof.
  revert i j. induction ls as [|l ls IH]; intros i j; simpl; [done|].
  intros (Hl & Hdisj & Hls)%NoDup_app.
  destruct i as [|i], j as [|j]; simpl; try done.
  - intros [= <-] Hj H1 H2. destruct (Hdisj x H1).
    apply list_elem_of_join. exists l2. split; [done|].
    by eapply list_elem_of_lookup_2.
  - intros Hi [= <-] H1 H2. destruct (Hdisj x H2).
    apply list_elem_of_join. exists l1. split; [done|].
    by eapply list_elem_of_lookup_2.
  - intros. f_equal. by eapply IH.
Qed.

Lemma NoDup_concat_elem {A} (ls : list (list A)) l :
  NoDup (mjoin ls) → l ∈ ls → NoDup l.
Proof.
  induction ls as [|l' ls IH]; simpl; [by intros _ ?%elem_of_nil|].
  intros (Hl & _ & Hls)%NoDup_app [->|Hin]%elem_of_cons; auto.
Qed.

(** With unique ids, a node of the tree has one position. *)
Lemma unique_ids_unique_path n :
  NoDup (ids n) →
  ∀ p1 p2 d1 d2,
    subtreeAt n p1 = Some d1 → subtreeAt n p2 = Some d2 →
    id d1 = id d2 → p1 = p2.
Proof.
  induction n as [i nm a cs b t ai IH] using NestedNode_Forall_ind.
  set (nd := mkNestedNode i nm a cs b t ai).
  simpl. intros [Hi Hcs]%NoDup_cons.
  assert (Hbelow : ∀ j p d, subtreeAt nd (j :: p) = Some d → id d ≠ i).
  { intros j p d Hd Heq. apply Hi. rewrite <- Heq. simpl in Hd.
    destruct (cs !! j) as [c|] eqn:Hj; simpl in Hd; [|done].
    apply list_elem_of_join. exists (ids c). split.
    - by eapply subtreeAt_id_in.
    - apply list_elem_of_fmap. exists c. split; [done|].
      by eapply list_elem_of_lookup_2. }
  intros [|j1 p1] [|j2 p2] d1 d2 H1 H2 Heq; [done| | |].
  - simpl in H1. injection H1 as <-. by destruct (Hbelow j2 p2 d2 H2).
  - simpl in H2. injection H2 as <-. by destruct (Hbelow j1 p1 d1 H1).
  - simpl in H1, H2.
    destruct (cs !! j1) as [c1|] eqn:Hj1; simpl in H1; [|done].
    destruct (cs !! j2) as [c2|] eqn:Hj2; simpl in H2; [|done].
    assert (j1 = j2) as <-.
    { eapply (NoDup_concat_lookup (ids <$> cs) j1 j2 (ids c1) (ids c2)
                (id d1)); [done| | | |].
      - by rewrite list_lookup_fmap, Hj1.
      - by rewrite list_lookup_fmap, Hj2.
      - by eapply subtreeAt_id_in.
      - rewrite Heq. by eapply subtreeAt_id_in. }
    rewrite Hj1 in Hj2. injection Hj2 as <-. f_equal.
    eapply (proj1 (Forall_lookup _ _) IH j1 c1 Hj1); [|done..].
    eapply NoDup_concat_elem; [exact Hcs|].
    apply list_elem_of_fmap. exists c1. split; [done|].
    by eapply list_elem_of_lookup_2.
Qed.

(** C5. When a node's [activeChildIdx] is set, [hitTestRec] recurses into
    the child at that index and into no other child; every node of the
    result of [hitTest] lies on a path that, below each node with an active
    child index, goes through the child at that index; hence, ids being
    unique, no sibling of an active child and no node of a sibling's
    subtree is in the result. With overlapping children D and E at
    (0,0,50,50) and [activeChildIdx = 1], the pointer (10,10) hits [E]
    only. *)
Theorem hitTest_active_child_only :
  (∀ node k c m res,
      activeChildIdx node = Some k → childAt (children node) k = Some c →
      hitTestRec node m res =
        '(childHit, res') ←
          hitTestRec c (offsetCoordinate m (origin (bounds node))) res;
        let hit := boundsContainsCoordinate (bounds node) m && negb childHit in
        Some (hit, if hit then res' ++ [node] else res')) ∧
  (∀ root m l,
      hitTest root m = Some l →
      ∀ d, d ∈ l → ∃ p, visiblePath root p ∧ subtreeAt root p = Some d) ∧
  (∀ root m l,
      hitTest root m = Some l → NoDup (ids root) →
      ∀ p n k j s q d,
        subtreeAt root p = Some n → activeChildIdx n = Some k →
        children n !! j = Some s → Z.of_nat j ≠ k →
        subtreeAt s q = Some d → d ∉ l) ∧
  hitTest tabHost (mkCoordinate 10 10) = Some [tabE].
Proof.
  split; [|split; [|split]].
  - intros node k c m res Hk Hc. rewrite hitTestRec_unfold.
    unfold candidates. rewrite Hk, Hc. simpl.
    destruct (hitTestRec c _ res) as [[h r]|]; simpl; [|done].
    by rewrite orb_false_r.
  - exact hitTest_visible.
  - intros root m l Hl Hnd p n k j s q d Hn Hk Hs Hjk Hd Hin.
    destruct (hitTest_visible root m l Hl d Hin) as (p' & Hvis & Hp').
    assert (Hpath : subtreeAt root (p ++ j :: q) = Some d).
    { rewrite subtreeAt_app, Hn. simpl. by rewrite Hs. }
    assert (p' = p ++ j :: q) as ->
      by (by eapply (unique_ids_unique_path root Hnd)).
    apply (visiblePath_app root p (j :: q) n) in Hvis; [|done].
    destruct Hvis as [Hact _]. by apply Hjk, eq_sym, Hact.
  - done.
Qed.

Lemma hitTest_active_child_only_witness : tabD ∉ [tabE].
Proof.
  apply (proj1 (proj2 (proj2 hitTest_active_child_only))
           tabHost (mkCoordinate 10 10) [tabE] eq_refl)
    with (p := []) (n := tabHost) (k := 1) (j := 0%nat) (s := tabD) (q := []).
  - apply (bool_decide_unpack _). vm_compute. exact I.
  - reflexivity.
  - reflexivity.
  - reflexivity.
  - simpl. lia.
  - reflexivity.
Defined.

(** *** What makes a node a hit *)

Lemma forChildren_flag cs off :
  ∀ h0 h r, forChildren cs off h0 [] = Some (h, r) →
            h = h0 || existsb (λ c, reported c off) cs.
Proof.
  induction cs as [|c cs IH]; intros h0 h r; simpl.
  - intros [= <- <-]. by rewrite orb_false_r.
  - unfold reported at 1.
    destruct (hitTestRec c off []) as [[h1 r1]|]; simpl; [|done].
    rewrite forChildren_acc
      by (apply Forall_forall; intros; apply hitTestRec_acc).
    destruct (forChildren cs off (h1 || h0) []) as [[h2 r2]|] eqn:H2;
      simpl; [|done].
    intros [= <- <-]. rewrite (IH _ _ _ H2).
    by destruct h1, h0, (existsb (λ c, reported c off) cs).
Qed.

(** The rule the code applies: a node is pushed when it contains the
    pointer and no candidate child was itself pushed; what happened
    further down does not reach it. *)
Lemma hitTestRec_rule node m h r :
  hitTestRec node m [] = Some (h, r) →
  ∃ cs, candidates node = Some cs ∧
        h = boundsContainsCoordinate (bounds node) m &&
            negb (existsb
                    (λ c, reported c
                            (offsetCoordinate m (origin (bounds node)))) cs) ∧
        (h = true → ∃ r', r = r' ++ [node]).
Proof.
  rewrite hitTestRec_unfold.
  destruct (candidates node) as [cs|]; simpl; [|done].
  destruct (forChildren cs _ false []) as [[h1 r1]|] eqn:Hf; simpl; [|done].
  apply forChildren_flag in Hf. simpl in Hf. subst h1.
  intros [= <- <-]. exists cs. split; [done|]. split; [done|].
  intros ->. by exists r1.
Qed.

(** Innermost-wins, read over all candidate descendants, does not hold of
    the code: a node can be in the result together with a node reached
    from it through candidate children. *)
Lemma innermost_wins_fails :
  ¬ (∀ root m l p q n d,
        hitTest root m = Some l →
        subtreeAt root p = Some n → q ≠ [] → visiblePath n q →
        subtreeAt n q = Some d → d ∈ l → n ∉ l).
Proof.
  intros H.
  apply (H treeR (mkCoordinate 20 20) [treeB; treeR] []
           [0%nat; 0%nat] treeR treeB); try done.
  - apply list_elem_of_here.
  - apply list_elem_of_further, list_elem_of_here.
Qed.

(** C4, at the input where the code parts from the claim. With R at
    (0,0,200,200) over A at (10,10,50,50) over B at (5,5,20,20) and the
    pointer at (20,20), all three contain the pointer; B is hit, A is not
    reported since its child was, and A hands [false] up, so R is reported
    as well although its descendant B was hit. On the two-level example of
    the claim the result is [C] alone. *)
Theorem hitTest_reports_ancestor_of_hit :
  hitTest treeR (mkCoordinate 20 20) = Some [treeB; treeR] ∧
  subtreeAt treeR [0%nat; 0%nat] = Some treeB ∧
  hitTest rootOverC (mkCoordinate 15 15) = Some [childC].
Proof. done. Qed.

(** ** Node maps: how far a chain of links can go *)

(** Distinct ids that resolve are at most as many as the map has entries. *)
Lemma seen_bound (nodes : gmap Id ClientNode) (seen : list Id) :
  NoDup seen → (∀ a, a ∈ seen → is_Some (nodes !! a)) →
  (length seen ≤ size nodes)%nat.
Proof.
  intros Hnd Hres.
  rewrite <- (size_list_to_set (C := gset Id) seen Hnd).
  rewrite <- (size_dom (D := gset Id) nodes).
  apply subseteq_size. intros a Ha.
  apply elem_of_list_to_set in Ha. by apply elem_of_dom, Hres.
Qed.

Section Ancestors.
Variable nodes : gmap Id ClientNode.
Variable R : relation Id.
Hypothesis R_resolves : ∀ a b, R a b → is_Some (nodes !! a).

Lemma ancestors_root a : acyclicFrom R a → ancestors nodes R [] a.
Proof.
  intros Hac. split; [constructor|].
  split; [|split; [|done]]; intros b Hb; by apply elem_of_nil in Hb.
Qed.

Lemma ancestors_step seen cur next :
  ancestors nodes R seen cur → R cur next →
  ancestors nodes R (cur :: seen) next.
Proof.
  intros (Hnd & Hres & Htc & Hac) Hstep. split; [|split; [|split]].
  - constructor; [|done]. intros Hin.
    apply (Hac cur); [done|]. by apply Htc.
  - intros a [->|Ha]%elem_of_cons; [by eapply R_resolves|by apply Hres].
  - intros a [->|Ha]%elem_of_cons; [by apply tc_once|].
    eapply tc_r; [by apply Htc|done].
  - intros b Hb. apply Hac. by eapply rtc_l.
Qed.

Lemma ancestors_bound seen cur :
  ancestors nodes R seen cur → (length seen ≤ size nodes)%nat.
Proof. intros (Hnd & Hres & _). by apply seen_bound. Qed.
End Ancestors.

(** ** The tree projector *)

Lemma uiNodeToNestedNode_unfold fuel nodes raw :
  uiNodeToNestedNode (S fuel) nodes raw =
  cs ← mapM (λ childId, nodes !! childId ≫= uiNodeToNestedNode fuel nodes)
            (nonNullChildren nodes raw);
  Some (mkNestedNode (c_id raw) (c_name raw) (c_attributes raw) cs
          (c_bounds raw) (c_tags raw)
          match c_activeChild raw with
          | Some a =>
              if truthy a
              then Some (indexOf (nonNullChildren nodes raw) a) else None
          | None => None
          end).
Proof. done. Qed.

Lemma uiNodeToNestedNode_S fuel nodes raw t :
  uiNodeToNestedNode fuel nodes raw = Some t →
  uiNodeToNestedNode (S fuel) nodes raw = Some t.
Proof.
  revert raw t. induction fuel as [|fuel IH]; intros raw t; [done|].
  rewrite !uiNodeToNestedNode_unfold.
  destruct (mapM _ (nonNullChildren nodes raw)) as [cs|] eqn:Hcs;
    simpl; [|done].
  intros <-. apply mapM_Some in Hcs.
  rewrite (mapM_Some_2 _ _ cs); [done|].
  eapply Forall2_impl; [exact Hcs|]. intros childId c Hc. simpl in *.
  destruct (nodes !! childId) as [craw|]; simpl in *; [|done].
  by apply IH.
Qed.

Lemma uiNodeToNestedNode_mono fuel fuel' nodes raw t :
  (fuel ≤ fuel')%nat →
  uiNodeToNestedNode fuel nodes raw = Some t →
  uiNodeToNestedNode fuel' nodes raw = Some t.
Proof.
  induction 1 as [|fuel' _ IH]; [done|].
  intros H. by apply uiNodeToNestedNode_S, IH.
Qed.

Lemma childStep_resolves nodes a b : childStep nodes a b → is_Some (nodes !! a).
Proof. intros (n & Hn & _). by exists n. Qed.

Lemma uiNodeToNestedNode_descends nodes fuel :
  ∀ seen key raw,
    nodes !! key = Some raw →
    ancestors nodes (childStep nodes) seen key →
    (size nodes < length seen + fuel)%nat →
    is_Some (uiNodeToNestedNode fuel nodes raw).
Proof.
  induction fuel as [|fuel IH]; intros seen key raw Hkey Hanc Hsize.
  - apply ancestors_bound in Hanc. lia.
  - simpl.
    destruct (mapM_is_Some_2
                (λ childId, nodes !! childId ≫= uiNodeToNestedNode fuel nodes)
                (nonNullChildren nodes raw)) as [cs ->]; [|done].
    apply Forall_forall. intros childId Hin. simpl.
    apply list_elem_of_filter in Hin as [[craw Hc] Hin].
    rewrite Hc. simpl. apply (IH (key :: seen) childId craw Hc).
    + eapply ancestors_step; [apply childStep_resolves|done|].
      exists raw. split; [done|]. split; [done|]. by exists craw.
    + simpl. lia.
Qed.

Lemma uiNodeToNestedNode_Projected nodes fuel :
  ∀ key raw t,
    nodes !! key = Some raw →
    uiNodeToNestedNode fuel nodes raw = Some t →
    Projected nodes key t.
Proof.
  induction fuel as [|fuel IH]; intros key raw t Hkey H; [done|].
  simpl in H.
  destruct (mapM _ (nonNullChildren nodes raw)) as [cs|] eqn:Hcs;
    simpl in H; [|done].
  injection H as <-. apply mapM_Some in Hcs.
  eapply Projected_node; [exact Hkey|done..|]. simpl.
  eapply Forall2_impl; [exact Hcs|]. intros childId c Hc. simpl in Hc.
  destruct (nodes !! childId) as [craw|] eqn:Hchild; simpl in Hc; [|done].
  by eapply IH.
Qed.

(** On a map without cycles below the key, the projection returns, and the
    same tree for every fuel above the size of the map. *)
Lemma uiNodeToNestedNode_returns nodes key raw :
  nodes !! key = Some raw → acyclicFrom (childStep nodes) key →
  ∃ t, Projected nodes key t ∧
       ∀ fuel, (size nodes < fuel)%nat →
               uiNodeToNestedNode fuel nodes raw = Some t.
Proof.
  intros Hkey Hac.
  destruct (uiNodeToNestedNode_descends nodes (S (size nodes)) [] key raw)
    as [t Ht]; [done|by apply ancestors_root|simpl; lia|].
  exists t. split; [by eapply uiNodeToNestedNode_Projected|].
  intros fuel Hfuel. eapply uiNodeToNestedNode_mono; [|exact Ht]. lia.
Qed.

(** *** [indexOf] *)

Lemma indexOfFrom_found l x :
  x ∈ l →
  ∀ i, ∃ n, indexOfFrom l x i = i + Z.of_nat n ∧ l !! n = Some x ∧
            ∀ j, (j < n)%nat → l !! j ≠ Some x.
Proof.
  induction l as [|y l IH]; [by intros ?%elem_of_nil|].
  intros Hin i. simpl. destruct (String.eqb y x) eqn:Hyx.
  - apply String.eqb_eq in Hyx as ->. exists 0%nat.
    split; [lia|]. split; [done|]. intros j Hj. lia.
  - apply String.eqb_neq in Hyx.
    apply elem_of_cons in Hin as [->|Hin]; [done|].
    destruct (IH Hin (i + 1)) as (n & Hn & Hl & Hfirst).
    exists (S n). split; [lia|]. split; [done|].
    intros [|j] Hj; simpl; [congruence|]. apply Hfirst. lia.
Qed.

Lemma indexOfFrom_missing l x i : x ∉ l → indexOfFrom l x i = -1.
Proof.
  revert i. induction l as [|y l IH]; intros i Hin; simpl; [done|].
  apply not_elem_of_cons in Hin as [Hne Hin].
  destruct (String.eqb y x) eqn:Hyx; [|by apply IH].
  apply String.eqb_eq in Hyx. congruence.
Qed.

(** C1, the claim as stated fails: an active child id that was dropped as
    dangling leaves [activeChildIdx] at the -1 of [indexOf], not
    undefined. *)
Lemma activeChildIdx_dangling_not_undefined :
  ¬ (∀ nodes key raw fuel t a,
        nodes !! key = Some raw →
        uiNodeToNestedNode fuel nodes raw = Some t →
        c_activeChild raw = Some a →
        a ∉ nonNullChildren nodes raw →
        activeChildIdx t = None).
Proof.
  intros H.
  specialize (H danglingMap "A" danglingA 2%nat nestedDanglingA "ghost").
  assert (Hno : "ghost" ∉ nonNullChildren danglingMap danglingA).
  { intros Hin. apply list_elem_of_filter in Hin as [[x Hx] _].
    vm_compute in Hx. discriminate Hx. }
  discriminate (H eq_refl eq_refl eq_refl Hno).
Qed.

(** C1, amended. For a raw node of the map, the projected node's
    [activeChildIdx] is undefined when [activeChild] is unset; when
    [activeChild] is a non-empty id, it is the first position of that id in
    the filtered children list if the id is there, and that position holds
    the projection of the active child; and it is -1 if the id is not in
    the filtered list. The projection returns whenever the child links
    below the node have no cycle. For A with children [B, C] and active
    child C the index is 1; with a dangling active child it is -1. *)
Theorem toNestedNode_activeChildIdx :
  (∀ nodes key raw fuel t,
      nodes !! key = Some raw →
      uiNodeToNestedNode fuel nodes raw = Some t →
      let kept := nonNullChildren nodes raw in
      (c_activeChild raw = None → activeChildIdx t = None) ∧
      (∀ a, c_activeChild raw = Some a → truthy a = true →
         (a ∈ kept →
          ∃ i c, activeChildIdx t = Some (Z.of_nat i) ∧
                 kept !! i = Some a ∧
                 (∀ j, (j < i)%nat → kept !! j ≠ Some a) ∧
                 children t !! i = Some c ∧ Projected nodes a c) ∧
         (a ∉ kept → activeChildIdx t = Some (-1)))) ∧
  (∀ nodes key raw,
      nodes !! key = Some raw → acyclicFrom (childStep nodes) key →
      ∃ t, ∀ fuel, (size nodes < fuel)%nat →
                   uiNodeToNestedNode fuel nodes raw = Some t) ∧
  (toNestedNode 2 "A" activeMap = Some (Some nestedActiveA) ∧
   activeChildIdx nestedActiveA = Some 1 ∧
   toNestedNode 2 "A" danglingMap = Some (Some nestedDanglingA) ∧
   activeChildIdx nestedDanglingA = Some (-1)).
Proof.
  split; [|split].
  - intros nodes key raw [|fuel] t Hkey Ht kept; [done|].
    rewrite uiNodeToNestedNode_unfold in Ht. fold kept in Ht.
    destruct (mapM _ kept) as [cs|] eqn:Hcs; simpl in Ht; [|done].
    injection Ht as <-. simpl. apply mapM_Some in Hcs.
    split; [by intros ->|].
    intros a -> Htruthy. rewrite Htruthy. split.
    + intros Hin. unfold indexOf.
      destruct (indexOfFrom_found kept a Hin 0) as (i & -> & Hi & Hfirst).
      destruct (Forall2_lookup_l _ _ _ i a Hcs Hi) as (c & Hc & Hproj).
      exists i, c. split; [f_equal; lia|]. repeat split; try done.
      simpl in Hproj.
      destruct (nodes !! a) as [craw|] eqn:Ha; simpl in Hproj; [|done].
      by eapply uiNodeToNestedNode_Projected.
    + intros Hout. unfold indexOf. by rewrite indexOfFrom_missing.
  - intros nodes key raw Hkey Hac.
    destruct (uiNodeToNestedNode_returns nodes key raw Hkey Hac)
      as (t & _ & Ht). by exists t.
  - repeat split; by vm_compute.
Qed.

Lemma toNestedNode_activeChildIdx_witness :
  (c_activeChild activeA = None → activeChildIdx nestedActiveA = None) ∧
  (∀ a, c_activeChild activeA = Some a → truthy a = true →
     (a ∈ nonNullChildren activeMap activeA →
      ∃ i c, activeChildIdx nestedActiveA = Some (Z.of_nat i) ∧
             nonNullChildren activeMap activeA !! i = Some a ∧
             (∀ j, (j < i)%nat →
                   nonNullChildren activeMap activeA !! j ≠ Some a) ∧
             children nestedActiveA !! i = Some c ∧
             Projected activeMap a c) ∧
     (a ∉ nonNullChildren activeMap activeA →
      activeChildIdx nestedActiveA = Some (-1))).
Proof.
  apply (proj1 toNestedNode_activeChildIdx activeMap "A" activeA 2%nat
           nestedActiveA).
  - vm_compute. reflexivity.
  - vm_compute. reflexivity.
Defined.

(** C2, at the input where the code parts from the claim. Projecting A,
    whose active child id is dangling, gives [activeChildIdx = -1];
    [children[-1]] is no node, and [hitTest] on the projected tree throws
    for every pointer. The renderer guards the same access with
    [activeChildIdx >= 0 && activeChildIdx < children.length]; [hitTest]
    does not. *)
Theorem hitTest_throws_on_dangling_activeChild :
  toNestedNode 2 "A" danglingMap = Some (Some nestedDanglingA) ∧
  activeChildIdx nestedDanglingA = Some (-1) ∧
  childAt (children nestedDanglingA) (-1) = None ∧
  ∀ m, hitTest nestedDanglingA m = None.
Proof.
  split; [by vm_compute|]. split; [done|]. split; [done|].
  intros m. reflexivity.
Qed.

(** C7, the claim as stated fails: on a map in which A lists itself as a
    child, A is present and yet no amount of fuel lets the projection
    return. *)
Lemma toNestedNode_cycle_no_result :
  is_Some (cyclicMap !! ("A" : Id)) ∧
  ∀ fuel, toNestedNode fuel "A" cyclicMap = None.
Proof.
  assert (Hl : cyclicMap !! ("A" : Id) = Some cyclicA) by (by vm_compute).
  assert (Hk : nonNullChildren cyclicMap cyclicA = ["A"]) by (by vm_compute).
  split; [by rewrite Hl|].
  assert (H : ∀ fuel, uiNodeToNestedNode fuel cyclicMap cyclicA = None).
  { induction fuel as [|fuel IH]; [done|].
    rewrite uiNodeToNestedNode_unfold, Hk.
    destruct (mapM _ ["A"]) as [cs|] eqn:Hcs; [|done].
    apply mapM_Some in Hcs. inversion Hcs as [|? c ? ? Hc]; subst.
    rewrite Hl in Hc. simpl in Hc. rewrite IH in Hc. discriminate Hc. }
  intros fuel. unfold toNestedNode. rewrite Hl. by rewrite H.
Qed.

(** C7, amended. [toNestedNode] returns undefined when the root id is
    absent from the map. When it is present and the child links below it
    have no cycle, it returns a tree, the same for every fuel above the
    size of the map, in which each node carries the fields of its raw
    node and has as children the projections of exactly those child ids
    that resolve in the map, in their order. A child id "ghost" that is
    not in the map is left out. *)
Theorem toNestedNode_projects :
  (∀ nodes rootId fuel,
      nodes !! rootId = None → toNestedNode fuel rootId nodes = Some None) ∧
  (∀ nodes rootId,
      is_Some (nodes !! rootId) → acyclicFrom (childStep nodes) rootId →
      ∃ t, Projected nodes rootId t ∧
           ∀ fuel, (size nodes < fuel)%nat →
                   toNestedNode fuel rootId nodes = Some (Some t)) ∧
  (c_children danglingA = ["B"; "ghost"] ∧
   toNestedNode 3 "A" danglingMap = Some (Some nestedDanglingA) ∧
   children nestedDanglingA = [nestedB]).
Proof.
  split; [|split].
  - intros nodes rootId fuel H. unfold toNestedNode. by rewrite H.
  - intros nodes rootId [raw Hraw] Hac.
    destruct (uiNodeToNestedNode_returns nodes rootId raw Hraw Hac)
      as (t & Hproj & Ht).
    exists t. split; [done|]. intros fuel Hfuel.
    unfold toNestedNode. rewrite Hraw, (Ht fuel Hfuel). done.
  - repeat split; by vm_compute.
Qed.

(** ** The overlay offset accumulator *)

Lemma sumRawOrigins_cons n l :
  sumRawOrigins (n :: l) =
  addOffset (origin (c_bounds n)) (sumRawOrigins l).
Proof. done. Qed.

Lemma parentChain_functional nodes cur l1 l2 :
  parentChain nodes cur l1 → parentChain nodes cur l2 → l1 = l2.
Proof.
  intros H1. revert l2.
  induction H1 as [|i Hi|i n l Hi _ IH]; intros l2 H2; inversion H2; subst;
    try done; try congruence.
  f_equal; [congruence|]. apply IH. congruence.
Qed.

Lemma getTotalOffsetLoop_chain nodes fuel :
  ∀ cur off r,
    getTotalOffsetLoop fuel nodes cur off = Some r →
    ∃ l, parentChain nodes cur l ∧ r = addOffset off (sumRawOrigins l).
Proof.
  induction fuel as [|fuel IH]; intros [i|] off r; simpl; try done.
  - intros [= <-]. exists []. split; [constructor|].
    by rewrite addOffset_zero_r.
  - destruct (nodes !! i) as [c|] eqn:Hi; simpl.
    + intros (l & Hl & ->)%IH. exists (c :: l).
      split; [by constructor|].
      rewrite sumRawOrigins_cons, <- addOffset_assoc. done.
    + destruct fuel; simpl; intros [= <-]; exists [];
        (split; [by constructor|by rewrite addOffset_zero_r]).
  - intros [= <-]. exists []. split; [constructor|].
    by rewrite addOffset_zero_r.
Qed.

Lemma parentStep_resolves nodes a b :
  parentStep nodes a b → is_Some (nodes !! a).
Proof. intros (n & Hn & _). by exists n. Qed.

Lemma getTotalOffsetLoop_descends nodes fuel :
  ∀ seen cur off,
    ancestors nodes (parentStep nodes) seen cur →
    (size nodes < length seen + fuel)%nat →
    is_Some (getTotalOffsetLoop fuel nodes (Some cur) off).
Proof.
  induction fuel as [|fuel IH]; intros seen cur off Hanc Hsize.
  - apply ancestors_bound in Hanc. lia.
  - simpl. destruct (nodes !! cur) as [c|] eqn:Hcur; simpl.
    + destruct (c_parent c) as [p|] eqn:Hp.
      * apply (IH (cur :: seen)); [|simpl; lia].
        eapply ancestors_step; [apply parentStep_resolves|done|].
        by exists c.
      * by destruct fuel.
    + by destruct fuel.
Qed.

(** C10. On a map whose parent links have no cycle, [getTotalOffset]
    returns, for every fuel above the size of the map, the componentwise
    sum of [bounds.x] and [bounds.y] over the nodes visited from [id] up
    the parent links, the walk ending where the link is null or does not
    resolve. When [id] is not in the map the result is (0,0). With B at
    (1,2) under A at (5,6), the offset of B is (6,8). *)
Theorem getTotalOffset_sum :
  (∀ nodes id,
      (∀ a, ¬ tc (parentStep nodes) a a) →
      ∃ l, parentChain nodes (Some id) l ∧
           ∀ fuel, (size nodes < fuel)%nat →
                   getTotalOffset fuel id nodes = Some (sumRawOrigins l)) ∧
  (∀ nodes id fuel,
      nodes !! id = None → (0 < fuel)%nat →
      getTotalOffset fuel id nodes = Some (mkCoordinate 0 0)) ∧
  (getTotalOffset 3 "B" chainMap = Some (mkCoordinate 6 8) ∧
   getTotalOffset 3 "ghost" chainMap = Some (mkCoordinate 0 0)).
Proof.
  split; [|split].
  - intros nodes i Hac.
    assert (Hfrom : acyclicFrom (parentStep nodes) i) by (intros b _; apply Hac).
    destruct (getTotalOffsetLoop_descends nodes (S (size nodes)) [] i
                (mkCoordinate 0 0)) as [r Hr];
      [by apply ancestors_root|simpl; lia|].
    destruct (getTotalOffsetLoop_chain nodes _ _ _ _ Hr) as (l & Hl & ->).
    exists l. split; [done|]. intros fuel Hfuel. unfold getTotalOffset.
    destruct (getTotalOffsetLoop_descends nodes fuel [] i
                (mkCoordinate 0 0)) as [r' Hr'];
      [by apply ancestors_root|simpl; lia|].
    rewrite Hr'.
    destruct (getTotalOffsetLoop_chain nodes _ _ _ _ Hr') as (l' & Hl' & ->).
    rewrite (parentChain_functional nodes _ _ _ Hl Hl').
    by rewrite addOffset_zero_l.
  - intros nodes i [|fuel] Hnone Hfuel; [lia|].
    unfold getTotalOffset. simpl. rewrite Hnone. simpl. by destruct fuel.
  - split; by vm_compute.
Qed.

(** *** The example maps have no cycles *)

Lemma single_edge_acyclic (R : relation Id) x0 y0 :
  x0 ≠ y0 → (∀ a b, R a b → a = x0 ∧ b = y0) → ∀ a, ¬ tc R a a.
Proof.
  intros Hne Hedge a Hcyc.
  inversion Hcyc as [? ? Hab|? b ? Hab Hba]; subst.
  - destruct (Hedge _ _ Hab) as [-> ->]. done.
  - destruct (Hedge _ _ Hab) as [-> ->].
    inversion Hba as [? ? Hs|? c ? Hs _]; subst;
      destruct (Hedge _ _ Hs) as [-> _]; done.
Qed.

Lemma chainMap_parentStep a b : parentStep chainMap a b → a = "B" ∧ b = "A".
Proof.
  intros (n & Hn & Hp). unfold chainMap in Hn.
  apply lookup_insert_Some in Hn as [[<- <-]|[_ Hn]]; [done|].
  apply lookup_insert_Some in Hn as [[<- <-]|[_ Hn]]; [|done].
  simpl in Hp. by injection Hp as <-.
Qed.

Lemma chainMap_acyclic : ∀ a, ¬ tc (parentStep chainMap) a a.
Proof.
  apply (single_edge_acyclic _ "B" "A"); [done|apply chainMap_parentStep].
Qed.

Lemma danglingMap_childStep a b :
  childStep danglingMap a b → a = "A" ∧ b = "B".
Proof.
  intros (n & Hn & Hin & [m Hm]). unfold danglingMap in Hn, Hm.
  apply lookup_insert_Some in Hn as [[<- <-]|[_ Hn]].
  - split; [done|]. simpl in Hin.
    apply elem_of_cons in Hin as [->|Hin]; [done|].
    apply list_elem_of_singleton in Hin as ->.
    by vm_compute in Hm.
  - apply lookup_insert_Some in Hn as [[<- <-]|[_ Hn]]; [|done].
    simpl in Hin. by apply elem_of_nil in Hin.
Qed.

Lemma danglingMap_acyclic a : acyclicFrom (childStep danglingMap) a.
Proof.
  intros b _.
  apply (single_edge_acyclic _ "A" "B"); [done|apply danglingMap_childStep].
Qed.

Lemma getTotalOffset_sum_witness :
  ∃ l, parentChain chainMap (Some "B") l ∧
       ∀ fuel, (size chainMap < fuel)%nat →
               getTotalOffset fuel "B" chainMap = Some (sumRawOrigins l).
Proof.
  apply (proj1 getTotalOffset_sum chainMap "B"). exact chainMap_acyclic.
Defined.

Lemma toNestedNode_projects_witness :
  ∃ t, Projected danglingMap "A" t ∧
       ∀ fuel, (size danglingMap < fuel)%nat →
               toNestedNode fuel "A" danglingMap = Some (Some t).
Proof.
  apply (proj1 (proj2 toNestedNode_projects) danglingMap "A").
  - exists danglingA. vm_compute. reflexivity.
  - apply danglingMap_acyclic.
Defined.

(** * Further properties of the code *)

(** ** Geometry *)


(** X2. Degenerate rectangles: a bounds with negative width or negative
    height contains no coordinate; a bounds of non-negative size contains
    its four corners, the edges being inclusive; a bounds of size zero
    contains its origin and nothing else. *)
Theorem boundsContainsCoordinate_degenerate b :
  (width b < 0 ∨ height b < 0 → ∀ c, boundsContainsCoordinate b c = false) ∧
  (0 ≤ width b → 0 ≤ height b →
     boundsContainsCoordinate b (mkCoordinate (bx b) (by_ b)) = true ∧
     boundsContainsCoordinate b
       (mkCoordinate (bx b + width b) (by_ b)) = true ∧
     boundsContainsCoordinate b
       (mkCoordinate (bx b) (by_ b + height b)) = true ∧
     boundsContainsCoordinate b
       (mkCoordinate (bx b + width b) (by_ b + height b)) = true) ∧
  (width b = 0 → height b = 0 →
     ∀ c, boundsContainsCoordinate b c = true ↔ c = origin b).
Proof.
  unfold boundsContainsCoordinate, origin. split; [|split].
  - intros H c. apply not_true_is_false.
    rewrite !andb_true_iff, !Z.leb_le. lia.
  - intros Hw Hh. simpl. rewrite !andb_true_iff, !Z.leb_le. lia.
  - intros Hw Hh [x y]. simpl. rewrite !andb_true_iff, !Z.leb_le.
    split; [intros ?; f_equal; lia|intros [= -> ->]; lia].
Qed.

Lemma boundsContainsCoordinate_degenerate_witness :
  boundsContainsCoordinate (mkBounds 3 4 (-1) 5) (mkCoordinate 3 4) = false.
Proof.
  apply (proj1 (boundsContainsCoordinate_degenerate (mkBounds 3 4 (-1) 5))).
  left. simpl. lia.
Defined.

(** ** The hit tester: which nodes are pushed *)

(** What the loop over the candidate children pushes: each call returns,
    and the nodes pushed are those the calls push. *)
Lemma forChildren_pushes cs off :
  ∀ h0 h r,
    forChildren cs off h0 [] = Some (h, r) →
    Forall (λ c, is_Some (hitTestRec c off [])) cs ∧
    ∀ d, d ∈ r ↔
         ∃ c hc rc, c ∈ cs ∧ hitTestRec c off [] = Some (hc, rc) ∧ d ∈ rc.
Proof.
  induction cs as [|c cs IH]; intros h0 h r; simpl.
  - intros [= <- <-]. split; [constructor|]. intros d. split.
    + by intros ?%elem_of_nil.
    + by intros (c & _ & _ & ?%elem_of_nil & _).
  - destruct (hitTestRec c off []) as [[h1 r1]|] eqn:H1; simpl; [|done].
    rewrite forChildren_acc
      by (apply Forall_forall; intros; apply hitTestRec_acc).
    destruct (forChildren cs off (h1 || h0) []) as [[h2 r2]|] eqn:H2;
      simpl; [|done].
    unfold pushedAfter; simpl. intros [= <- <-].
    destruct (IH _ _ _ H2) as [Hall Hin]. split.
    + constructor; [by rewrite H1|done].
    + intros d. rewrite elem_of_app, Hin. split.
      * intros [Hd|(c' & hc & rc & Hc' & Hcall & Hd)].
        -- exists c, h1, r1. split; [left|done].
        -- exists c', hc, rc. split; [by right|done].
      * intros (c' & hc & rc & [->|Hc']%elem_of_cons & Hcall & Hd).
        -- left. rewrite H1 in Hcall. by injection Hcall as _ <-.
        -- right. by exists c', hc, rc.
Qed.

(** The same for a node: it pushes itself when it is a hit, and what its
    candidate children push. *)
Lemma hitTestRec_pushes node m h r :
  hitTestRec node m [] = Some (h, r) →
  let off := offsetCoordinate m (origin (bounds node)) in
  ∃ cs, candidates node = Some cs ∧
        Forall (λ c, is_Some (hitTestRec c off [])) cs ∧
        h = boundsContainsCoordinate (bounds node) m &&
            negb (existsb (λ c, reported c off) cs) ∧
        ∀ d, d ∈ r ↔
             (h = true ∧ d = node) ∨
             ∃ c hc rc, c ∈ cs ∧ hitTestRec c off [] = Some (hc, rc) ∧
                        d ∈ rc.
Proof.
  intros Hcall off. rewrite hitTestRec_unfold in Hcall. fold off in Hcall.
  destruct (candidates node) as [cs|]; simpl in Hcall; [|done].
  destruct (forChildren cs off false []) as [[h1 r1]|] eqn:Hf;
    simpl in Hcall; [|done].
  destruct (forChildren_pushes cs off _ _ _ Hf) as [Hall Hin].
  apply forChildren_flag in Hf. simpl in Hf. subst h1.
  exists cs. split; [done|]. split; [done|].
  injection Hcall as <- <-. split; [done|]. intros d.
  destruct (boundsContainsCoordinate (bounds node) m &&
            negb (existsb (λ c, reported c off) cs)).
  - rewrite elem_of_app, list_elem_of_singleton, Hin. split.
    + intros [?| ->]; [by right|by left].
    + intros [[_ ->]|?]; [by right|by left].
  - rewrite Hin. split; [by right|]. by intros [[? _]|?].
Qed.

Lemma candidates_visible nd cs i c :
  candidates nd = Some cs →
  (∀ k, activeChildIdx nd = Some k → k = Z.of_nat i) →
  children nd !! i = Some c → c ∈ cs.
Proof.
  unfold candidates, childAt. destruct (activeChildIdx nd) as [k|].
  - intros Hcs Hk Hc. rewrite (Hk k eq_refl) in Hcs.
    destruct (Z.of_nat i <? 0) eqn:Hneg; [apply Z.ltb_lt in Hneg; lia|].
    rewrite Nat2Z.id, Hc in Hcs. injection Hcs as <-.
    apply list_elem_of_here.
  - intros [= <-] _ Hc. by eapply list_elem_of_lookup_2.
Qed.

Lemma candidates_indexValid nd cs : candidates nd = Some cs → indexValid nd.
Proof.
  unfold candidates, childAt, indexValid.
  destruct (activeChildIdx nd) as [k|]; [|done].
  destruct (k <? 0) eqn:Hneg; [done|]. apply Z.ltb_ge in Hneg.
  destruct (children nd !! Z.to_nat k) as [c|] eqn:Hc; [|done].
  intros _. apply lookup_lt_Some in Hc. lia.
Qed.

(** The call made on a node of a visible path, and what it pushes, as part
    of the call on the root. *)
Lemma hitTestRec_subcall p :
  ∀ node m h r d m',
    hitTestRec node m [] = Some (h, r) →
    visiblePath node p → subtreeAt node p = Some d →
    pointerAt node p m = Some m' →
    ∃ hd rd, hitTestRec d m' [] = Some (hd, rd) ∧ ∀ e, e ∈ rd → e ∈ r.
Proof.
  induction p as [|i p IH]; intros node m h r d m' Hcall Hvis Hsub Hptr.
  - simpl in Hsub, Hptr. injection Hsub as <-. injection Hptr as <-.
    by exists h, r.
  - simpl in Hvis, Hsub, Hptr. destruct Hvis as [Hk Hvis].
    destruct (children node !! i) as [c|] eqn:Hc; simpl in *; [|done].
    destruct (hitTestRec_pushes _ _ _ _ Hcall) as (cs & Hcs & Hall & _ & Hin).
    assert (Hccs : c ∈ cs) by (by eapply candidates_visible).
    destruct (proj1 (Forall_forall _ _) Hall c Hccs) as [[hc rc] Hcc].
    destruct (IH _ _ _ _ _ _ Hcc Hvis Hsub Hptr) as (hd & rd & Hd & Hsubset).
    exists hd, rd. split; [done|]. intros e He. apply Hin. right.
    exists c, hc, rc. split; [done|]. split; [done|]. by apply Hsubset.
Qed.

(** X3. [hitTest] returns exactly when every node on a visible path has a
    valid active-child index (unset, or a position in its children list);
    otherwise it throws, whatever the pointer. Indexes below a hidden
    sibling do not matter. *)
Theorem hitTest_returns_iff root m :
  is_Some (hitTest root m) ↔
  ∀ p n, visiblePath root p → subtreeAt root p = Some n → indexValid n.
Proof.
  split.
  - intros [l Hl] p n Hvis Hsub. unfold hitTest in Hl.
    destruct (hitTestRec root m []) as [[h r]|] eqn:Hr; [|done].
    assert (Hptr : is_Some (pointerAt root p m)).
    { clear -Hsub. revert root m Hsub.
      induction p as [|i p IH]; intros root m; simpl; [done|].
      destruct (children root !! i) as [c|]; simpl; [apply IH|done]. }
    destruct Hptr as [m' Hptr].
    destruct (hitTestRec_subcall p _ _ _ _ _ _ Hr Hvis Hsub Hptr)
      as (hd & rd & Hd & _).
    destruct (hitTestRec_pushes _ _ _ _ Hd) as (cs & Hcs & _).
    by eapply candidates_indexValid.
  - intros Hvalid.
    assert (H : ∀ node,
      (∀ p n, visiblePath node p → subtreeAt node p = Some n → indexValid n) →
      ∀ m res, is_Some (hitTestRec node m res)).
    { clear. intros node.
      induction node as [i nm a cs b t ai IH] using NestedNode_Forall_ind.
      intros Hw m res. rewrite hitTestRec_unfold.
      set (nd := mkNestedNode i nm a cs b t ai) in *.
      destruct (candidates_valid nd) as (cands & Hc & _);
        [by apply (Hw [])|].
      rewrite Hc. simpl.
      assert (Hall : ∀ l, (∀ c, c ∈ l → c ∈ cands) →
                ∀ off h r, is_Some (forChildren l off h r)).
      { induction l as [|c l IHl]; intros Hl off h r; simpl; [done|].
        destruct (candidates_elem nd cands c Hc (Hl c (list_elem_of_here _ _)))
          as (j & Hj & Hk).
        assert (Hcall : is_Some (hitTestRec c off r)).
        { apply (proj1 (Forall_lookup _ _) IH j c Hj).
          intros p n Hvis Hsub. apply (Hw (j :: p)); simpl.
          - split; [done|]. simpl in Hj. by rewrite Hj.
          - simpl in Hj. by rewrite Hj. }
        destruct Hcall as [[h1 r1] ->]. simpl. apply IHl.
        intros d Hd. apply Hl. by right. }
      destruct (Hall cands (λ _ H, H) (offsetCoordinate m (origin b)) false res)
        as [[h r] ->].
      done. }
    unfold hitTest. destruct (H root Hvalid m []) as [[h r] ->]. done.
Qed.

Lemma tabHost_visible_valid :
  ∀ p n, visiblePath tabHost p → subtreeAt tabHost p = Some n → indexValid n.
Proof.
  intros [|i p] n Hvis Hsub.
  - injection Hsub as <-. unfold indexValid. simpl. lia.
  - destruct Hvis as [Hk Hvis]. specialize (Hk 1 eq_refl).
    assert (i = 1%nat) as -> by lia. simpl in Hsub.
    destruct p as [|j p]; [by injection Hsub as <-|].
    by destruct j.
Qed.

Lemma hitTest_returns_iff_witness :
  is_Some (hitTest tabHost (mkCoordinate 10 10)).
Proof.
  apply (proj2 (hitTest_returns_iff tabHost (mkCoordinate 10 10))).
  exact tabHost_visible_valid.
Defined.

(** ** The renderer against the hit tester *)

Lemma nestedChildren_visible n i c :
  (∀ k, activeChildIdx n = Some k → k = Z.of_nat i) →
  children n !! i = Some c → c ∈ nestedChildren n.
Proof.
  intros Hk Hc. unfold nestedChildren, childAt.
  destruct (activeChildIdx n) as [k|]; [|by eapply list_elem_of_lookup_2].
  rewrite (Hk k eq_refl). pose proof (lookup_lt_Some _ _ _ Hc) as Hlt.
  destruct (0 <=? Z.of_nat i) eqn:H0; [|apply Z.leb_gt in H0; lia].
  destruct (Z.of_nat i <? Z.of_nat (length (children n))) eqn:H1;
    [|apply Z.ltb_ge in H1; lia].
  destruct (Z.of_nat i <? 0) eqn:H2; [apply Z.ltb_lt in H2; lia|].
  simpl. rewrite Nat2Z.id, Hc. apply list_elem_of_here.
Qed.

Lemma visiblePath_Drawn p :
  ∀ n d, visiblePath n p → subtreeAt n p = Some d → Drawn n d.
Proof.
  induction p as [|i p IH]; intros n d Hvis Hsub; simpl in *.
  - injection Hsub as <-. constructor.
  - destruct Hvis as [Hk Hvis].
    destruct (children n !! i) as [c|] eqn:Hc; simpl in *; [|done].
    apply (Drawn_child n c d); [by eapply nestedChildren_visible|by apply IH].
Qed.

(** X4. The renderer and the hit tester consider the same children wherever
    the hit tester does not throw: if the candidate children of a node are
    defined, they are the children the renderer draws. Where they are not
    (the index points at no child), the renderer falls back to drawing all
    children. In either case the renderer draws children of the node
    only. *)
Theorem nestedChildren_candidates n :
  (∀ cs, candidates n = Some cs → nestedChildren n = cs) ∧
  (candidates n = None → nestedChildren n = children n) ∧
  (∀ c, c ∈ nestedChildren n → c ∈ children n).
Proof.
  unfold candidates, nestedChildren, childAt.
  destruct (activeChildIdx n) as [k|].
  2: { split; [by intros ? [= <-]|]. by split. }
  destruct (k <? 0) eqn:Hneg; simpl.
  - apply Z.ltb_lt in Hneg.
    destruct (0 <=? k) eqn:H0; [apply Z.leb_le in H0; lia|]. simpl.
    split; [by intros ? [=]|]. by split.
  - apply Z.ltb_ge in Hneg.
    destruct (0 <=? k) eqn:H0; [|apply Z.leb_gt in H0; lia]. simpl.
    destruct (k <? Z.of_nat (length (children n))) eqn:H1.
    + apply Z.ltb_lt in H1.
      destruct (lookup_lt_is_Some_2 (children n) (Z.to_nat k)) as [c Hc];
        [lia|].
      rewrite Hc. simpl. split; [by intros ? [= <-]|]. split; [done|].
      intros d ->%list_elem_of_singleton. by eapply list_elem_of_lookup_2.
    + apply Z.ltb_ge in H1.
      rewrite (lookup_ge_None_2 (children n) (Z.to_nat k)) by lia.
      simpl. split; [by intros ? [=]|]. by split.
Qed.

Lemma nestedChildren_candidates_witness : nestedChildren tabHost = [tabE].
Proof.
  apply (proj1 (nestedChildren_candidates tabHost) [tabE]). reflexivity.
Defined.

(** X5. Every node [hitTest] returns is a node the renderer draws: a hit
    is never a node hidden from view. *)
Theorem hitTest_hits_are_drawn root m l :
  hitTest root m = Some l → ∀ d, d ∈ l → Drawn root d.
Proof.
  intros Hl d Hd.
  destruct (hitTest_visible root m l Hl d Hd) as (p & Hvis & Hsub).
  by eapply visiblePath_Drawn.
Qed.

Lemma hitTest_hits_are_drawn_witness : Drawn tabHost tabE.
Proof.
  apply (hitTest_hits_are_drawn tabHost (mkCoordinate 10 10) [tabE]).
  - reflexivity.
  - apply list_elem_of_here.
Defined.

(** ** The hit tester: sound and complete on visible paths *)

Lemma hitTestRec_contains node :
  ∀ m h r,
    hitTestRec node m [] = Some (h, r) →
    ∀ d, d ∈ r →
      ∃ p m', visiblePath node p ∧ subtreeAt node p = Some d ∧
              pointerAt node p m = Some m' ∧
              boundsContainsCoordinate (bounds d) m' = true.
Proof.
  induction node as [i nm a cs b t ai IH] using NestedNode_Forall_ind.
  set (nd := mkNestedNode i nm a cs b t ai).
  intros m h r Hcall d Hd.
  pose proof (hitTestRec_pushes _ _ _ _ Hcall) as Hpush.
  cbv zeta in Hpush. destruct Hpush as (cands & Hc & Hall & Hh & Hin).
  destruct (proj1 (Hin d) Hd)
    as [[Hhit Heq]|(c & hc & rc & Hcin & Hcc & Hdc)].
  - exists [], m. rewrite Heq. repeat split; try done.
    rewrite Hhit in Hh. symmetry in Hh. by apply andb_true_iff in Hh as [? _].
  - destruct (candidates_elem nd cands c Hc Hcin) as (j & Hj & Hk).
    destruct (proj1 (Forall_lookup _ _) IH j c Hj _ _ _ Hcc d Hdc)
      as (p & m' & Hvis & Hsub & Hptr & Hcont).
    exists (j :: p), m'. simpl in Hj |- *. rewrite Hj. simpl.
    repeat split; done.
Qed.

(** X6. Each node [hitTest] returns contains the pointer, taken in the
    frame of the node's parent: the pointer given for the root, less the
    origins of the nodes above the hit. *)
Theorem hitTest_hit_contains_pointer root m l :
  hitTest root m = Some l →
  ∀ d, d ∈ l →
    ∃ p m', visiblePath root p ∧ subtreeAt root p = Some d ∧
            pointerAt root p m = Some m' ∧
            boundsContainsCoordinate (bounds d) m' = true.
Proof.
  unfold hitTest.
  destruct (hitTestRec root m []) as [[h r]|] eqn:Hr; [|done].
  intros [= <-] d Hd. rewrite arraySort_Permutation in Hd.
  by eapply hitTestRec_contains.
Qed.

Lemma hitTest_hit_contains_pointer_witness :
  ∃ p m', visiblePath treeR p ∧ subtreeAt treeR p = Some treeB ∧
          pointerAt treeR p (mkCoordinate 20 20) = Some m' ∧
          boundsContainsCoordinate (bounds treeB) m' = true.
Proof.
  apply (hitTest_hit_contains_pointer treeR (mkCoordinate 20 20)
           [treeB; treeR]).
  - reflexivity.
  - apply list_elem_of_here.
Defined.

(** X7. No visible node under the pointer goes unnoticed: if a node on a
    visible path contains the pointer (in its parent's frame), then
    [hitTest], when it returns, returns that node or one of its children;
    so the result is not empty. *)
Theorem hitTest_complete root m l p d m' :
  hitTest root m = Some l →
  visiblePath root p → subtreeAt root p = Some d →
  pointerAt root p m = Some m' →
  boundsContainsCoordinate (bounds d) m' = true →
  (d ∈ l ∨ ∃ c, c ∈ children d ∧ c ∈ l) ∧ l ≠ [].
Proof.
  unfold hitTest.
  destruct (hitTestRec root m []) as [[h r]|] eqn:Hr; [|done].
  intros [= <-] Hvis Hsub Hptr Hcont.
  destruct (hitTestRec_subcall p _ _ _ _ _ _ Hr Hvis Hsub Hptr)
    as (hd & rd & Hd & Hsubset).
  destruct (hitTestRec_pushes _ _ _ _ Hd) as (cs & Hcs & _ & Hh & Hin).
  assert (Hfound : d ∈ r ∨ ∃ c, c ∈ children d ∧ c ∈ r).
  { rewrite Hcont in Hh. simpl in Hh.
    destruct (existsb _ cs) eqn:Hex; simpl in Hh; subst hd.
    - right. apply existsb_exists in Hex as (c & Hc & Hrep).
      apply list_elem_of_In in Hc. unfold reported in Hrep.
      destruct (hitTestRec c _ []) as [[hc rc]|] eqn:Hcc; [|done].
      subst hc. destruct (hitTestRec_rule _ _ _ _ Hcc) as (_ & _ & _ & Hlast).
      destruct (Hlast eq_refl) as [r' ->].
      destruct (candidates_elem d cs c Hcs Hc) as (j & Hj & _).
      exists c. split; [by eapply list_elem_of_lookup_2|].
      apply Hsubset, Hin. right. exists c, true, (r' ++ [c]).
      split; [done|]. split; [done|].
      apply elem_of_app. right. apply list_elem_of_here.
    - left. apply Hsubset, Hin. by left. }
  assert (Hl : d ∈ arraySort compareArea r ∨
               ∃ c, c ∈ children d ∧ c ∈ arraySort compareArea r).
  { destruct Hfound as [?|(c & ? & ?)]; [left|right; exists c; split; [done|]];
      by rewrite arraySort_Permutation. }
  split; [done|].
  intros Hnil. rewrite Hnil in Hl.
  destruct Hl as [Hl|(c & _ & Hl)]; by apply elem_of_nil in Hl.
Qed.

Lemma hitTest_complete_witness :
  (treeA ∈ [treeB; treeR] ∨ ∃ c, c ∈ children treeA ∧ c ∈ [treeB; treeR]) ∧
  [treeB; treeR] ≠ [].
Proof.
  apply (hitTest_complete treeR (mkCoordinate 20 20) [treeB; treeR]
           [0%nat] treeA (mkCoordinate 20 20)); reflexivity || exact I || idtac.
  simpl. split; [done|exact I].
Defined.

(** ** Hit testing a focused copy *)








(** ** The order of the result *)

Lemma sortInsert_filter a x l :
  filter (λ d, area d = a) (sortInsert compareArea x l) =
  filter (λ d, area d = a) (x :: l).
Proof.
  induction l as [|y l IH]; simpl; [done|].
  destruct (compareArea x y <=? 0) eqn:Hxy; [done|].
  assert (Hlt : area y < area x).
  { destruct (Z.le_gt_cases (area x) (area y)) as [Hle|Hgt]; [|lia].
    apply compareArea_le in Hle. congruence. }
  rewrite (filter_cons _ y), IH, !filter_cons.
  destruct (decide (area y = a)), (decide (area x = a)); try done. lia.
Qed.

(** X9. [hitTest] returns the nodes [hitTestRec] pushed, each as often as
    it was pushed, and the sort keeps nodes of equal area in the order
    they were pushed. *)
Theorem hitTest_stable_permutation n m l :
  hitTest n m = Some l →
  ∃ h r, hitTestRec n m [] = Some (h, r) ∧ l ≡ₚ r ∧
         ∀ a, filter (λ d, area d = a) l = filter (λ d, area d = a) r.
Proof.
  unfold hitTest. destruct (hitTestRec n m []) as [[h r]|]; [|done].
  intros [= <-]. exists h, r. split; [done|].
  split; [apply arraySort_Permutation|].
  intros a. induction r as [|x r IH]; simpl; [done|].
  by rewrite sortInsert_filter, !filter_cons, IH.
Qed.

Lemma hitTest_stable_permutation_witness :
  ∃ h r, hitTestRec twoLeaves (mkCoordinate 5 5) [] = Some (h, r) ∧
         [leafSmall; leafLarge] ≡ₚ r ∧
         ∀ a, filter (λ d, area d = a) [leafSmall; leafLarge] =
              filter (λ d, area d = a) r.
Proof.
  apply (hitTest_stable_permutation twoLeaves (mkCoordinate 5 5)).
  reflexivity.
Defined.

(** ** The tree projector: indexes, reachability, cycles *)

Lemma indexOfFrom_range l x i :
  indexOfFrom l x i = -1 ∨
  i ≤ indexOfFrom l x i < i + Z.of_nat (length l).
Proof.
  destruct (decide (x ∈ l)) as [Hin|Hout].
  - right. destruct (indexOfFrom_found l x Hin i) as (n & -> & Hn & _).
    apply lookup_lt_Some in Hn. lia.
  - left. by apply indexOfFrom_missing.
Qed.

Lemma uiNodeToNestedNode_children nodes fuel raw t :
  uiNodeToNestedNode (S fuel) nodes raw = Some t →
  Forall2 (λ childId c, ∃ craw, nodes !! childId = Some craw ∧
                                uiNodeToNestedNode fuel nodes craw = Some c)
    (nonNullChildren nodes raw) (children t) ∧
  activeChildIdx t =
    match c_activeChild raw with
    | Some a =>
        if truthy a then Some (indexOf (nonNullChildren nodes raw) a)
        else None
    | None => None
    end.
Proof.
  rewrite uiNodeToNestedNode_unfold.
  destruct (mapM _ (nonNullChildren nodes raw)) as [cs|] eqn:Hcs;
    simpl; [|done].
  intros [= <-]. simpl. split; [|done]. apply mapM_Some in Hcs.
  eapply Forall2_impl; [exact Hcs|]. intros childId c Hc. simpl in Hc.
  destruct (nodes !! childId) as [craw|]; simpl in Hc; [|done].
  by exists craw.
Qed.

Lemma uiNodeToNestedNode_index_range nodes fuel :
  ∀ raw t,
    uiNodeToNestedNode fuel nodes raw = Some t →
    ∀ p n, subtreeAt t p = Some n → indexOrMinusOne n.
Proof.
  induction fuel as [|fuel IH]; intros raw t Ht p n Hsub; [done|].
  destruct (uiNodeToNestedNode_children _ _ _ _ Ht) as [Hcs Hidx].
  destruct p as [|j p]; simpl in Hsub.
  - injection Hsub as <-. unfold indexOrMinusOne. rewrite Hidx.
    destruct (c_activeChild raw) as [a|]; [|done].
    destruct (truthy a); [|done].
    rewrite <- (Forall2_length _ _ _ Hcs). unfold indexOf.
    destruct (indexOfFrom_range (nonNullChildren nodes raw) a 0); lia.
  - destruct (children t !! j) as [c|] eqn:Hc; simpl in Hsub; [|done].
    destruct (Forall2_lookup_r _ _ _ _ _ Hcs Hc) as (cid & _ & craw & _ & Hcc).
    by eapply IH.
Qed.

(** X10. In a tree returned by [toNestedNode], every [activeChildIdx] is
    unset, -1, or a position in the node's children list: it is never at
    or beyond the length. Of the two bounds the renderer checks, only
    [activeChildIdx >= 0] can fail on a projected tree. *)
Theorem toNestedNode_index_range fuel rootId nodes t :
  toNestedNode fuel rootId nodes = Some (Some t) →
  ∀ p n, subtreeAt t p = Some n → indexOrMinusOne n.
Proof.
  unfold toNestedNode. destruct (nodes !! rootId) as [root|]; [|done].
  destruct (uiNodeToNestedNode fuel nodes root) as [t'|] eqn:Ht; [|done].
  intros [= <-]. by eapply uiNodeToNestedNode_index_range.
Qed.

Lemma toNestedNode_index_range_witness : indexOrMinusOne nestedDanglingA.
Proof.
  apply (toNestedNode_index_range 2 "A" danglingMap nestedDanglingA)
    with (p := []).
  - vm_compute. reflexivity.
  - reflexivity.
Defined.

Lemma uiNodeToNestedNode_wellIndexed nodes fuel :
  activeListed nodes →
  ∀ key raw t,
    nodes !! key = Some raw →
    uiNodeToNestedNode fuel nodes raw = Some t → wellIndexed t.
Proof.
  intros Hlisted.
  induction fuel as [|fuel IH]; intros key raw t Hkey Ht p n Hsub; [done|].
  destruct (uiNodeToNestedNode_children _ _ _ _ Ht) as [Hcs Hidx].
  destruct p as [|j p]; simpl in Hsub.
  - injection Hsub as <-. unfold indexValid. rewrite Hidx.
    destruct (c_activeChild raw) as [a|] eqn:Ha; [|done].
    destruct (truthy a) eqn:Htruthy; [|done].
    pose proof (Hlisted key raw a Hkey Ha Htruthy) as Hin.
    unfold indexOf.
    destruct (indexOfFrom_found _ a Hin 0) as (i & -> & Hi & _).
    apply lookup_lt_Some in Hi.
    rewrite <- (Forall2_length _ _ _ Hcs). lia.
  - destruct (children t !! j) as [c|] eqn:Hc; simpl in Hsub; [|done].
    destruct (Forall2_lookup_r _ _ _ _ _ Hcs Hc)
      as (cid & _ & craw & Hcid & Hcc).
    by eapply (IH cid craw c).
Qed.

(** X11. When every active child that is set in the map is a child that
    resolves, the tree returned by [toNestedNode] has only valid
    active-child indexes, and [hitTest] on it returns for every pointer. *)
Theorem hitTest_total_on_projection fuel rootId nodes t :
  activeListed nodes →
  toNestedNode fuel rootId nodes = Some (Some t) →
  wellIndexed t ∧ ∀ m, is_Some (hitTest t m).
Proof.
  intros Hlisted. unfold toNestedNode.
  destruct (nodes !! rootId) as [root|] eqn:Hroot; [|done].
  destruct (uiNodeToNestedNode fuel nodes root) as [t'|] eqn:Ht; [|done].
  intros [= <-].
  assert (Hw : wellIndexed t')
    by (by eapply uiNodeToNestedNode_wellIndexed).
  split; [done|]. intros m. unfold hitTest.
  destruct (hitTestRec_total t' Hw m []) as [[h r] ->]. done.
Qed.

Lemma activeMap_activeListed : activeListed activeMap.
Proof.
  intros k n a Hk Ha Htruthy. unfold activeMap in Hk.
  apply lookup_insert_Some in Hk as [[<- <-]|[_ Hk]].
  - injection Ha as <-. vm_compute.
    apply list_elem_of_further, list_elem_of_here.
  - apply lookup_insert_Some in Hk as [[<- <-]|[_ Hk]]; [done|].
    apply lookup_insert_Some in Hk as [[<- <-]|[_ Hk]]; done.
Qed.

Lemma hitTest_total_on_projection_witness :
  wellIndexed nestedActiveA ∧ ∀ m, is_Some (hitTest nestedActiveA m).
Proof.
  apply (hitTest_total_on_projection 2 "A" activeMap nestedActiveA).
  - exact activeMap_activeListed.
  - vm_compute. reflexivity.
Defined.

Lemma Projected_raw nodes key raw t :
  Projected nodes key t → nodes !! key = Some raw →
  id t = c_id raw ∧ bounds t = c_bounds raw ∧
  Forall2 (Projected nodes) (nonNullChildren nodes raw) (children t).
Proof.
  intros Hp Hkey. inversion Hp as [? raw' ? Hkey' Hid _ _ Hb _ Hcs]; subst.
  rewrite Hkey in Hkey'. injection Hkey' as <-. done.
Qed.

Lemma Projected_resolves nodes key t :
  Projected nodes key t → is_Some (nodes !! key).
Proof. intros Hp. inversion Hp; subst. eauto. Qed.

Lemma nonNullChildren_childStep nodes key raw cid :
  nodes !! key = Some raw →
  cid ∈ nonNullChildren nodes raw ↔ childStep nodes key cid.
Proof.
  intros Hkey. unfold nonNullChildren, childStep.
  rewrite list_elem_of_filter. split.
  - intros [Hres Hin]. by exists raw.
  - intros (n & Hn & Hin & Hres). rewrite Hkey in Hn.
    injection Hn as <-. done.
Qed.

Lemma Projected_subtree nodes p :
  ∀ key t n,
    Projected nodes key t → subtreeAt t p = Some n →
    ∃ k, rtc (childStep nodes) key k ∧ Projected nodes k n.
Proof.
  induction p as [|j p IH]; intros key t n Hp Hsub; simpl in Hsub.
  - injection Hsub as <-. by exists key.
  - destruct (children t !! j) as [c|] eqn:Hc; simpl in Hsub; [|done].
    destruct (Projected_resolves _ _ _ Hp) as [raw Hkey].
    destruct (Projected_raw _ _ _ _ Hp Hkey) as (_ & _ & Hcs).
    destruct (Forall2_lookup_r _ _ _ _ _ Hcs Hc) as (cid & Hcid & Hpc).
    destruct (IH cid c n Hpc Hsub) as (k & Hreach & Hk).
    exists k. split; [|done]. eapply rtc_l; [|exact Hreach].
    apply (nonNullChildren_childStep nodes key raw cid Hkey).
    by eapply list_elem_of_lookup_2.
Qed.

Lemma Projected_reachable nodes key k :
  rtc (childStep nodes) key k →
  ∀ t, Projected nodes key t →
       ∃ p n, subtreeAt t p = Some n ∧ Projected nodes k n.
Proof.
  induction 1 as [key|key mid k Hstep _ IH]; intros t Hp.
  - by exists [], t.
  - destruct (Projected_resolves _ _ _ Hp) as [raw Hkey].
    destruct (Projected_raw _ _ _ _ Hp Hkey) as (_ & _ & Hcs).
    apply (nonNullChildren_childStep nodes key raw mid Hkey) in Hstep.
    apply list_elem_of_lookup in Hstep as [j Hj].
    destruct (Forall2_lookup_l _ _ _ _ _ Hcs Hj) as (c & Hc & Hpc).
    destruct (IH c Hpc) as (p & n & Hsub & Hn).
    exists (j :: p), n. simpl. rewrite Hc. by split.
Qed.

Lemma toNestedNode_Projected fuel rootId nodes t :
  toNestedNode fuel rootId nodes = Some (Some t) → Projected nodes rootId t.
Proof.
  unfold toNestedNode. destruct (nodes !! rootId) as [root|] eqn:Hroot; [|done].
  destruct (uiNodeToNestedNode fuel nodes root) as [t'|] eqn:Ht; [|done].
  intros [= <-]. by eapply uiNodeToNestedNode_Projected.
Qed.

(** X12. The tree returned by [toNestedNode] holds exactly the nodes that
    are reachable from the root id through child ids that resolve: every
    node of the tree is the projection of such a node, and every such
    node has its projection somewhere in the tree. Nodes of the map that
    are not reachable this way do not appear. *)
Theorem toNestedNode_reachable fuel rootId nodes t :
  toNestedNode fuel rootId nodes = Some (Some t) →
  (∀ p n, subtreeAt t p = Some n →
          ∃ k, rtc (childStep nodes) rootId k ∧ Projected nodes k n) ∧
  (∀ k, rtc (childStep nodes) rootId k →
        ∃ p n, subtreeAt t p = Some n ∧ Projected nodes k n).
Proof.
  intros Ht. apply toNestedNode_Projected in Ht. split.
  - intros p n Hsub. by eapply Projected_subtree.
  - intros k Hk. by eapply Projected_reachable.
Qed.

Lemma toNestedNode_reachable_witness :
  (∀ p n, subtreeAt nestedActiveA p = Some n →
          ∃ k, rtc (childStep activeMap) "A" k ∧ Projected activeMap k n) ∧
  (∀ k, rtc (childStep activeMap) "A" k →
        ∃ p n, subtreeAt nestedActiveA p = Some n ∧ Projected activeMap k n).
Proof.
  apply (toNestedNode_reachable 2 "A" activeMap nestedActiveA).
  vm_compute. reflexivity.
Defined.

Lemma uiNodeToNestedNode_child_None nodes fuel key raw b rawb :
  nodes !! key = Some raw → childStep nodes key b →
  nodes !! b = Some rawb →
  uiNodeToNestedNode fuel nodes rawb = None →
  uiNodeToNestedNode (S fuel) nodes raw = None.
Proof.
  intros Hkey Hstep Hb Hnone.
  apply (nonNullChildren_childStep nodes key raw b Hkey) in Hstep.
  rewrite uiNodeToNestedNode_unfold.
  destruct (mapM _ (nonNullChildren nodes raw)) as [cs|] eqn:Hcs; [|done].
  assert (Hsome : is_Some (mapM (λ childId,
             nodes !! childId ≫= uiNodeToNestedNode fuel nodes)
             (nonNullChildren nodes raw))) by (by rewrite Hcs).
  apply mapM_is_Some_1 in Hsome.
  destruct (proj1 (Forall_forall _ _) Hsome b Hstep) as [c Hc].
  simpl in Hc. rewrite Hb in Hc. simpl in Hc. congruence.
Qed.

Lemma tc_first_step {A} (R : relation A) a :
  tc R a a → ∃ b, R a b ∧ tc R b b.
Proof.
  intros Hcyc. inversion Hcyc as [? ? Hab|? b ? Hab Hba]; subst.
  - exists a. split; [done|]. by apply tc_once.
  - exists b. split; [done|]. eapply tc_r; [exact Hba|done].
Qed.

Lemma uiNodeToNestedNode_on_cycle nodes fuel :
  ∀ a raw,
    tc (childStep nodes) a a → nodes !! a = Some raw →
    uiNodeToNestedNode fuel nodes raw = None.
Proof.
  induction fuel as [|fuel IH]; intros a raw Hcyc Ha; [done|].
  destruct (tc_first_step _ _ Hcyc) as (b & Hstep & Hb).
  destruct Hstep as (n & Hn & Hin & [rawb Hrawb]).
  eapply (uiNodeToNestedNode_child_None nodes fuel a raw b rawb);
    [done| |done|by eapply IH].
  by exists n.
Qed.

(** X13. A cycle among the child links that can be reached from the root
    id keeps [toNestedNode] from returning: whatever the fuel, the
    projection does not end. *)
Theorem toNestedNode_diverges_on_cycle nodes rootId a :
  rtc (childStep nodes) rootId a → tc (childStep nodes) a a →
  ∀ fuel, toNestedNode fuel rootId nodes = None.
Proof.
  intros Hreach Hcyc.
  assert (H : ∀ fuel raw, nodes !! rootId = Some raw →
                          uiNodeToNestedNode fuel nodes raw = None).
  { induction Hreach as [a|key mid a Hstep _ IH]; intros fuel raw Hraw.
    - by eapply uiNodeToNestedNode_on_cycle.
    - destruct fuel as [|fuel]; [done|].
      pose proof Hstep as (n & _ & _ & [rawm Hrawm]).
      eapply (uiNodeToNestedNode_child_None nodes fuel key raw mid rawm);
        [done..|]. by apply IH. }
  assert (Hroot : is_Some (nodes !! rootId)).
  { apply rtc_tc in Hreach as [->|Htc].
    - apply tc_first_step in Hcyc as (b & Hstep & _).
      by eapply childStep_resolves.
    - inversion Htc; subst; by eapply childStep_resolves. }
  destruct Hroot as [raw Hraw]. intros fuel.
  unfold toNestedNode. rewrite Hraw, (H fuel raw Hraw). done.
Qed.

Lemma toNestedNode_diverges_on_cycle_witness :
  toNestedNode 5 "A" cyclicMap = None.
Proof.
  apply (toNestedNode_diverges_on_cycle cyclicMap "A" "A").
  - apply rtc_refl.
  - apply tc_once. exists cyclicA.
    split; [by vm_compute|]. split; [apply list_elem_of_here|].
    exists cyclicA. by vm_compute.
Defined.

(** ** The overlay offset: recursion, cycles, and the focus offset *)

Lemma getTotalOffsetLoop_acc nodes fuel :
  ∀ cur off,
    getTotalOffsetLoop fuel nodes cur off =
    addOffset off <$> getTotalOffsetLoop fuel nodes cur (mkCoordinate 0 0).
Proof.
  induction fuel as [|fuel IH]; intros [i|] off; simpl;
    try (by rewrite addOffset_zero_r); try done.
  destruct (nodes !! i) as [c|]; simpl.
  - rewrite (IH _ (mkCoordinate (cx off + _) _)).
    rewrite (IH _ (mkCoordinate (0 + _) _)).
    destruct (getTotalOffsetLoop fuel nodes _ (mkCoordinate 0 0)) as [r|];
      simpl; [|done].
    f_equal. unfold addOffset. simpl. f_equal; lia.
  - destruct fuel; simpl; by rewrite addOffset_zero_r.
Qed.

(** X14. The offset of a node is its own [bounds.x], [bounds.y] when it
    has no parent link, and otherwise its own plus the offset of its
    parent, computed with one unit of fuel less (a parent id that does not
    resolve counts as (0,0)). *)
Theorem getTotalOffset_step nodes i n fuel :
  nodes !! i = Some n →
  (c_parent n = None →
     getTotalOffset (S fuel) i nodes = Some (origin (c_bounds n))) ∧
  (∀ p, c_parent n = Some p →
     getTotalOffset (S fuel) i nodes =
     addOffset (origin (c_bounds n)) <$> getTotalOffset fuel p nodes).
Proof.
  intros Hi. unfold getTotalOffset. simpl. rewrite Hi. simpl. split.
  - intros ->. by destruct fuel.
  - intros p ->. rewrite getTotalOffsetLoop_acc. done.
Qed.

Lemma getTotalOffset_step_witness :
  getTotalOffset 3 "B" chainMap =
  addOffset (origin (c_bounds rawB)) <$> getTotalOffset 2 "A" chainMap.
Proof.
  refine (proj2 (getTotalOffset_step chainMap "B" rawB 2 _) "A" _).
  - vm_compute. reflexivity.
  - reflexivity.
Defined.

Lemma getTotalOffsetLoop_on_cycle nodes fuel :
  ∀ a off,
    tc (parentStep nodes) a a →
    getTotalOffsetLoop fuel nodes (Some a) off = None.
Proof.
  induction fuel as [|fuel IH]; intros a off Hcyc; [done|].
  destruct (tc_first_step _ _ Hcyc) as (b & (n & Hn & Hp) & Hb).
  simpl. rewrite Hn. simpl. rewrite Hp. by apply IH.
Qed.

(** X15. A cycle among the parent links on the way up from an id keeps
    [getTotalOffset] from returning: whatever the fuel, the loop does not
    end. *)
Theorem getTotalOffset_diverges_on_cycle nodes i a :
  rtc (parentStep nodes) i a → tc (parentStep nodes) a a →
  ∀ fuel, getTotalOffset fuel i nodes = None.
Proof.
  intros Hreach Hcyc. unfold getTotalOffset.
  generalize (mkCoordinate 0 0) as off.
  induction Hreach as [a|i mid a (n & Hn & Hp) _ IH]; intros off fuel.
  - by apply getTotalOffsetLoop_on_cycle.
  - destruct fuel as [|fuel]; [done|].
    simpl. rewrite Hn. simpl. rewrite Hp. by apply IH.
Qed.

Lemma getTotalOffset_diverges_on_cycle_witness :
  getTotalOffset 5 "A" parentCycleMap = None.
Proof.
  apply (getTotalOffset_diverges_on_cycle parentCycleMap "A" "A").
  - apply rtc_refl.
  - apply (tc_l _ "A" "B" "A").
    + eexists. split; [by vm_compute|reflexivity].
    + apply tc_once. eexists. split; [by vm_compute|reflexivity].
Defined.

Lemma getTotalOffsetLoop_of_chain nodes cur l :
  parentChain nodes cur l →
  ∀ fuel off, (length l < fuel)%nat →
    getTotalOffsetLoop fuel nodes cur off =
    Some (addOffset off (sumRawOrigins l)).
Proof.
  induction 1 as [|i Hi|i n l Hi _ IH]; intros fuel off Hfuel.
  - destruct fuel; simpl; by rewrite addOffset_zero_r.
  - destruct fuel as [|fuel]; [simpl in Hfuel; lia|].
    simpl. rewrite Hi. simpl. destruct fuel; by rewrite addOffset_zero_r.
  - destruct fuel as [|fuel]; [simpl in Hfuel; lia|].
    simpl. rewrite Hi. simpl. rewrite IH by (simpl in Hfuel; lia).
    by rewrite sumRawOrigins_cons, <- addOffset_assoc.
Qed.

(** Going down a path of the projected tree and going up the parent links
    from where the path ends visit the same raw nodes. *)
Lemma Projected_path_chain nodes p :
  linked nodes →
  ∀ key raw t n along above,
    nodes !! key = Some raw → Projected nodes key t →
    parentChain nodes (c_parent raw) above →
    subtreeAt t p = Some n → nodesAlong t p = Some along →
    ∃ chain, parentChain nodes (Some (id n)) chain ∧
             sumRawOrigins chain =
             addOffset (sumOrigins along) (sumRawOrigins above).
Proof.
  intros [Hids Hparents].
  induction p as [|j p IH];
    intros key raw t n along above Hkey Hp Habove Hsub Halong;
    destruct (Projected_raw _ _ _ _ Hp Hkey) as (Hid & Hb & Hcs);
    simpl in Hsub, Halong.
  - injection Hsub as <-. injection Halong as <-.
    exists (raw :: above). split.
    + rewrite Hid, (Hids key raw Hkey). by constructor.
    + rewrite sumRawOrigins_cons. unfold sumOrigins, addOffset, origin.
      simpl. rewrite Hb. f_equal; lia.
  - destruct (children t !! j) as [c|] eqn:Hc; simpl in Hsub, Halong; [|done].
    destruct (nodesAlong c p) as [along'|] eqn:Hal; simpl in Halong; [|done].
    injection Halong as <-.
    destruct (Forall2_lookup_r _ _ _ _ _ Hcs Hc) as (cid & Hcid & Hpc).
    destruct (Projected_resolves _ _ _ Hpc) as [craw Hcraw].
    assert (Hcin : cid ∈ c_children raw).
    { apply list_elem_of_lookup_2 in Hcid.
      by apply list_elem_of_filter in Hcid as [_ ?]. }
    assert (Hchain : parentChain nodes (c_parent craw) (raw :: above)).
    { rewrite (Hparents key raw cid craw Hkey Hcin Hcraw). by constructor. }
    destruct (IH cid craw c n along' (raw :: above) Hcraw Hpc Hchain Hsub Hal)
      as (chain & Hch & Hsum).
    exists chain. split; [done|]. rewrite Hsum, sumRawOrigins_cons.
    unfold sumOrigins, addOffset, origin. simpl. rewrite Hb. f_equal; lia.
Qed.

(** X16. The overlay and the focus agree. On a map whose links agree (a
    node is stored under its id, a child names its lister as parent),
    when the focus state is computed from the snapshot root and the focus
    target occurs in the projected tree, [getTotalOffset] of the target
    is the [focusedRootGlobalOffset], plus the offsets of the nodes above
    the snapshot root that the parent links still reach; when the root
    has no parent that resolves, the two offsets are equal. *)
Theorem getTotalOffset_focus_offset nodes fuel rootId rootRaw target fs above :
  linked nodes →
  nodes !! rootId = Some rootRaw →
  parentChain nodes (c_parent rootRaw) above →
  focusStateOf fuel (Some rootId) nodes (Some target) = Some (Some fs) →
  occurs target (actualRoot fs) →
  ∃ fuel0, ∀ fuel', (fuel0 ≤ fuel')%nat →
    getTotalOffset fuel' target nodes =
    Some (addOffset (focusedRootGlobalOffset fs) (sumRawOrigins above)).
Proof.
  intros Hlinked Hroot Habove Hfs Hocc. unfold focusStateOf in Hfs.
  destruct (toNestedNode fuel rootId nodes) as [[t|]|] eqn:Ht; [|done..].
  injection Hfs as <-. apply toNestedNode_Projected in Ht.
  unfold caclulateFocusState in *.
  destruct (findNodeAndGlobalOffsetRec_result t (mkCoordinate 0 0) t target)
    as [[Hnone Hno]|(p & n & along & Hp & Hid & Hal & _ & Hfound)].
  { rewrite Hnone in Hocc. by destruct Hno. }
  rewrite Hfound. simpl.
  destruct (Projected_path_chain nodes p Hlinked rootId rootRaw t n along
              above Hroot Ht Habove Hp Hal) as (chain & Hchain & Hsum).
  rewrite Hid in Hchain.
  exists (S (length chain)). intros fuel' Hfuel'. unfold getTotalOffset.
  rewrite (getTotalOffsetLoop_of_chain nodes _ _ Hchain) by lia.
  by rewrite Hsum, !addOffset_zero_l.
Qed.

Lemma chainMap_linked : linked chainMap.
Proof.
  split.
  - intros k n Hk. unfold chainMap in Hk.
    apply lookup_insert_Some in Hk as [[<- <-]|[_ Hk]]; [done|].
    apply lookup_insert_Some in Hk as [[<- <-]|[_ Hk]]; done.
  - intros k n c cn Hk Hc Hcn. unfold chainMap in Hk.
    apply lookup_insert_Some in Hk as [[<- <-]|[_ Hk]].
    + simpl in Hc. apply list_elem_of_singleton in Hc as ->.
      vm_compute in Hcn. by injection Hcn as <-.
    + apply lookup_insert_Some in Hk as [[<- <-]|[_ Hk]]; [|done].
      simpl in Hc. by apply elem_of_nil in Hc.
Qed.

Lemma getTotalOffset_focus_offset_witness :
  ∃ fuel0, ∀ fuel', (fuel0 ≤ fuel')%nat →
    getTotalOffset fuel' "B" chainMap =
    Some (addOffset
            (focusedRootGlobalOffset
               (caclulateFocusState nestedChainA (Some "B")))
            (sumRawOrigins [])).
Proof.
  apply (getTotalOffset_focus_offset chainMap 3 "A"
           (exampleRaw "A" None (mkBounds 5 6 100 100) ["B"] None) "B").
  - exact chainMap_linked.
  - vm_compute. reflexivity.
  - constructor.
  - vm_compute. reflexivity.
  - exists [0%nat], nestedB. split; reflexivity.
Defined.



(** ** Focusing twice *)

(** X18. Focusing is idempotent: resolving the same target again on the
    focused root changes nothing further. The focused root stays the
    focused root, now at offset (0,0), whether the target was found the
    first time or not. *)
Theorem caclulateFocusState_refocus root target :
  let fs := caclulateFocusState root target in
  caclulateFocusState (focusedRoot fs) target = trivialFocus (focusedRoot fs).
Proof.
  destruct target as [t|]; [|done]. cbv zeta. unfold caclulateFocusState.
  destruct (findNodeAndGlobalOffsetRec_result root (mkCoordinate 0 0) root t)
    as [[Hnone Hno]|(p & n & along & Hp & Hid & _ & _ & Hfound)].
  - rewrite Hnone. cbn [focusedRoot]. by rewrite Hnone.
  - rewrite Hfound. cbn [focusedRoot].
    rewrite findNodeAndGlobalOffsetRec_unfold.
    change (id (zeroOrigin n)) with (id n).
    rewrite Hid, String.eqb_refl. by destruct n.
Qed.
